(** * QComNetSim: event scheduler, quantum-state primitives and the
      Barrett-Kok outcome statistics

    A shallow embedding of
    - [benches/python/scheduler_benchmark.py]  ([Event], [EventScheduler]),
      together with the [heapq] routines of the Python standard library
      it calls ([heappush], [heappop], [_siftdown], [_siftup]);
    - [benches/python/quantum_benchmark.py]    (the named gates,
      [apply_gate], [fidelity]);
    - [src/validation/sequence/two_node_barrett_kok.py]
      ([SimpleManager.update] and the derived statistics of
      [run_experiment]).

    Number model.  Event times are only ever compared, and the counters
    and recorded fidelities are only added and divided, so they are
    modelled as rationals ([Q]), which computes.  Amplitudes need a
    square root; they are modelled as exact reals ([R]), and so is the
    exact value of the channel transmission.  For those, IEEE-754
    rounding, overflow, underflow and NaN are outside the model.  The
    transmission as the code computes it, in doubles, is modelled
    separately ([expected_transmission_double]), with rounding to
    nearest, infinities and NaN. *)

From Stdlib Require Import QArith Lia ZifyNat Lra Permutation Sorted.
From Stdlib Require Import Reals.
From Stdlib Require Lqa.
From Stdlib Require Import Classical_Prop.
From stdpp Require Import base option list strings.

(** ** Python outcomes

    A Python call either returns a value or raises.  [OutOfFuel] is the
    outcome of a loop whose fuel ran out; the theorems below show that
    the fuel handed to each loop is always enough. *)

Inductive exn : Set :=
  | IndexError
  | ValueError
  | ZeroDivisionError.

Inductive outcome (A : Type) : Type :=
  | Ok (a : A)
  | Raise (e : exn)
  | OutOfFuel.

Arguments Ok {A} a.
Arguments Raise {A} e.
Arguments OutOfFuel {A}.

Definition bind {A B : Type} (m : outcome A) (k : A → outcome B) : outcome B :=
  match m with
  | Ok a => k a
  | Raise e => Raise e
  | OutOfFuel => OutOfFuel
  end.

Notation "'let*' x ':=' m 'in' k" := (bind m (fun x => k))
  (at level 10, x name, m at level 100, k at level 200, only parsing).
Notation "'let*' ' p ':=' m 'in' k" := (bind m (fun x => let 'p := x in k))
  (at level 10, p pattern, m at level 100, k at level 200, only parsing).

(** [heap[i]] and [heap[i] = x] on a Python list, for a non-negative
    index: out of range raises [IndexError]. *)
Definition getitem {A : Type} (l : list A) (i : nat) : outcome A :=
  match l !! i with
  | Some x => Ok x
  | None => Raise IndexError
  end.

Definition setitem {A : Type} (l : list A) (i : nat) (x : A) : outcome (list A) :=
  if i <? length l then Ok (<[i:=x]> l) else Raise IndexError.

(** [l.pop()]: removes and returns the last element. *)
Definition list_pop {A : Type} (l : list A) : outcome (A * list A) :=
  match last l with
  | Some x => Ok (x, take (length l - 1) l)
  | None => Raise IndexError
  end.

(** ** scheduler_benchmark.py *)

Record Event : Set := mkEvent {
  time : Q;
  event_type : string;
  node_id : Z
}.

(** [Event.__lt__]: [self.time < other.time]. *)
Definition Event_lt (self other : Event) : bool :=
  match (time self ?= time other)%Q with
  | Lt => true
  | _ => false
  end.

(** *** heapq (CPython, Lib/heapq.py) over [Event.__lt__]

    Positions are naturals: [pos - 1] is only taken when [pos > startpos],
    so no index is ever negative. *)

(** The [while pos > startpos] loop of [_siftdown]. *)
Fixpoint siftdown_loop (fuel : nat) (heap : list Event) (startpos pos : nat)
    (newitem : Event) : outcome (list Event) :=
  if startpos <? pos then
    match fuel with
    | 0 => OutOfFuel
    | S fuel' =>
        let parentpos := (pos - 1) / 2 in
        let* parent := getitem heap parentpos in
        if Event_lt newitem parent then
          let* heap' := setitem heap pos parent in
          siftdown_loop fuel' heap' startpos parentpos newitem
        else setitem heap pos newitem
    end
  else setitem heap pos newitem.

Definition _siftdown (heap : list Event) (startpos pos : nat) : outcome (list Event) :=
  let* newitem := getitem heap pos in
  siftdown_loop pos heap startpos pos newitem.

(** The [while childpos < endpos] loop of [_siftup]; returns the list and
    the final [pos]. *)
Fixpoint siftup_loop (fuel : nat) (heap : list Event) (endpos pos childpos : nat)
    : outcome (list Event * nat) :=
  if childpos <? endpos then
    match fuel with
    | 0 => OutOfFuel
    | S fuel' =>
        let rightpos := childpos + 1 in
        let* childpos' := (if rightpos <? endpos then
                        let* l := getitem heap childpos in
                        let* r := getitem heap rightpos in
                        Ok (if negb (Event_lt l r) then rightpos else childpos)
                      else Ok childpos) in
        let* child := getitem heap childpos' in
        let* heap' := setitem heap pos child in
        siftup_loop fuel' heap' endpos childpos' (2 * childpos' + 1)
    end
  else Ok (heap, pos).

Definition _siftup (heap : list Event) (pos : nat) : outcome (list Event) :=
  let endpos := length heap in
  let startpos := pos in
  let* newitem := getitem heap pos in
  let* '(heap1, pos1) := siftup_loop endpos heap endpos pos (2 * pos + 1) in
  let* heap2 := setitem heap1 pos1 newitem in
  _siftdown heap2 startpos pos1.

Definition heappush (heap : list Event) (item : Event) : outcome (list Event) :=
  let heap := heap ++ [item] in
  _siftdown heap 0 (length heap - 1).

Definition heappop (heap : list Event) : outcome (Event * list Event) :=
  let* '(lastelt, heap) := list_pop heap in
  if 0 <? length heap then
    let* returnitem := getitem heap 0 in
    let* heap := setitem heap 0 lastelt in
    let* heap := _siftup heap 0 in
    Ok (returnitem, heap)
  else Ok (lastelt, heap).

(** *** EventScheduler *)

Record EventScheduler : Set := mkScheduler { queue : list Event }.

(** [EventScheduler.__init__] *)
Definition new_scheduler : EventScheduler := {| queue := [] |}.

Definition schedule (self : EventScheduler) (event : Event) : outcome EventScheduler :=
  let* q := heappush (queue self) event in
  Ok {| queue := q |}.

Definition next_event (self : EventScheduler) : outcome (option Event * EventScheduler) :=
  if 0 <? length (queue self) then
    let* '(e, q) := heappop (queue self) in
    Ok (Some e, {| queue := q |})
  else Ok (None, self).

Definition has_events (self : EventScheduler) : bool :=
  0 <? length (queue self).

(** [for e in events: scheduler.schedule(e)] *)
Fixpoint schedule_all (self : EventScheduler) (events : list Event)
    : outcome EventScheduler :=
  match events with
  | [] => Ok self
  | e :: rest => let* s := schedule self e in schedule_all s rest
  end.

(** [while scheduler.has_events(): scheduler.next_event()], as in
    [benchmark_insert_remove], recording what each call returns. *)
Fixpoint drain_loop (fuel : nat) (self : EventScheduler)
    : outcome (list Event * EventScheduler) :=
  if has_events self then
    match fuel with
    | 0 => OutOfFuel
    | S fuel' =>
        let* '(r, s) := next_event self in
        let* '(rest, s') := drain_loop fuel' s in
        Ok (match r with Some e => e :: rest | None => rest end, s')
    end
  else Ok ([], self).

Definition drain (self : EventScheduler) : outcome (list Event * EventScheduler) :=
  drain_loop (length (queue self)) self.

(** An event with the given time and label, for the worked examples. *)
Definition ev (t : Q) (name : string) : Event :=
  {| time := t; event_type := name; node_id := 0 |}.

(** ** quantum_benchmark.py

    [complex] is a Python/numpy complex number over exact reals. *)

Record complex : Type := mkC { re : R; im : R }.

Definition RtoC (x : R) : complex := mkC x 0.

(** The literal [1j]. *)
Definition Ci : complex := mkC 0 1.

Definition Cadd (z w : complex) : complex :=
  mkC (re z + re w) (im z + im w).

Definition Cmul (z w : complex) : complex :=
  mkC (re z * re w - im z * im w) (re z * im w + im z * re w).

Definition Cneg (z : complex) : complex := mkC (- re z) (- im z).

Definition Cconj (z : complex) : complex := mkC (re z) (- im z).

(** [|z|^2] and [np.abs(z)]. *)
Definition Cnorm2 (z : complex) : R := (re z * re z + im z * im z)%R.

Definition Cabs (z : complex) : R := sqrt (Cnorm2 z).

(** One-dimensional arrays are lists; a two-dimensional array is the
    list of its rows. *)
Definition vector : Type := list complex.

Definition matrix : Type := list (list complex).

Definition PAULI_X : matrix :=
  [[RtoC 0; RtoC 1]; [RtoC 1; RtoC 0]].

Definition PAULI_Y : matrix :=
  [[RtoC 0; Cneg Ci]; [Ci; RtoC 0]].

Definition PAULI_Z : matrix :=
  [[RtoC 1; RtoC 0]; [RtoC 0; RtoC (-1)]].

(** [c * array] for a real scalar [c]. *)
Definition scale (c : R) (m : matrix) : matrix :=
  map (map (Cmul (RtoC c))) m.

Definition HADAMARD : matrix :=
  scale (1 / sqrt 2) [[RtoC 1; RtoC 1]; [RtoC 1; RtoC (-1)]].

(** [sum_j u[j] * v[j]]. *)
Fixpoint dot (u v : list complex) : complex :=
  match u, v with
  | x :: u', y :: v' => Cadd (Cmul x y) (dot u' v')
  | _, _ => RtoC 0
  end.

(** [m @ v] for a two-dimensional [m] and a one-dimensional [v]: numpy
    raises [ValueError] unless every row is as long as [v]. *)
Definition matmul (m : matrix) (v : vector) : outcome vector :=
  if forallb (λ row, length row =? length v) m
  then Ok (map (λ row, dot row v) m)
  else Raise ValueError.

Definition apply_gate (state : vector) (gate : matrix) : outcome vector :=
  matmul gate state.

(** [np.vdot(a, b)]: the first argument is conjugated; numpy raises
    [ValueError] when the two vectors have different lengths. *)
Definition vdot (a b : vector) : outcome complex :=
  if length a =? length b
  then Ok (dot (map Cconj a) b)
  else Raise ValueError.

Definition fidelity (state1 state2 : vector) : outcome R :=
  let* inner := vdot state1 state2 in
  Ok (Cabs inner ^ 2)%R.

(** ** two_node_barrett_kok.py *)

(** The fields of [SimpleManager] that [update] and the statistics use.
    The counters start at 0 and are only ever incremented. *)
Record SimpleManager : Type := mkManager {
  memo_name : string;
  raw_counter : nat;
  ent_counter : nat;
  fidelities : list Q
}.

(** [SimpleManager.__init__] *)
Definition new_manager (name : string) : SimpleManager :=
  {| memo_name := name; raw_counter := 0; ent_counter := 0; fidelities := [] |}.

Section Sequence.

(** The memory and the protocol come from the SeQUeNCe library, which is
    not part of this repository: the memory type, its [fidelity]
    attribute and its [reset] method are parameters. *)
Variable Memory : Type.
Variable memory_fidelity : Memory → Q.
Variable memory_reset : Memory → Memory.
Variable Protocol : Type.

(** [SimpleManager.update]; returns the manager and the memory after the
    call. *)
Definition update (self : SimpleManager) (protocol : Protocol)
    (memory : Memory) (state : string) : SimpleManager * Memory :=
  if String.eqb state "RAW" then
    ({| memo_name := memo_name self;
        raw_counter := raw_counter self + 1;
        ent_counter := ent_counter self;
        fidelities := fidelities self |},
     memory_reset memory)
  else
    ({| memo_name := memo_name self;
        raw_counter := raw_counter self;
        ent_counter := ent_counter self + 1;
        fidelities := fidelities self ++ [memory_fidelity memory] |},
     memory).

(** The manager after a sequence of completed attempts, each ending in
    one call of [update]. *)
Fixpoint updates (self : SimpleManager)
    (calls : list (Protocol * Memory * string)) : SimpleManager :=
  match calls with
  | [] => self
  | (protocol, memory, state) :: rest =>
      updates (fst (update self protocol memory state)) rest
  end.

(** The calls whose outcome is not ['RAW'], and what each one records. *)
Definition recorded (calls : list (Protocol * Memory * string)) : list Q :=
  omap (λ '(_, memory, state),
          if String.eqb state "RAW" then None else Some (memory_fidelity memory))
       calls.

End Sequence.

Arguments update {Memory} memory_fidelity memory_reset {Protocol}
  self protocol memory state.
Arguments updates {Memory} memory_fidelity memory_reset {Protocol} self calls.
Arguments recorded {Memory} memory_fidelity {Protocol} calls.

(** [x / y] on Python numbers. *)
Definition truediv (x y : Q) : outcome Q :=
  if Qeq_bool y 0 then Raise ZeroDivisionError else Ok (x / y)%Q.

(** [x > y] *)
Definition Qgtb (x y : Q) : bool :=
  match (y ?= x)%Q with
  | Lt => true
  | _ => false
  end.

Definition Qnat (n : nat) : Q := inject_Z (Z.of_nat n).

(** The statistics of [run_experiment], lines 143-157.  [now] is
    [tl.now()]. *)
Definition success_rate (m : SimpleManager) : outcome Q :=
  let successes := ent_counter m in
  let failures := raw_counter m in
  let total := successes + failures in
  if 0 <? total then truediv (Qnat successes) (Qnat total) else Ok 0%Q.

Definition throughput (m : SimpleManager) (now : Q) : outcome Q :=
  let successes := ent_counter m in
  let* sim_time_seconds := truediv now 1e12 in
  if Qgtb sim_time_seconds 0
  then truediv (Qnat successes) sim_time_seconds
  else Ok 0%Q.

(** [sum(fidelities)] *)
Definition Qsum (l : list Q) : Q := fold_left Qplus l 0%Q.

Definition avg_fidelity (m : SimpleManager) : outcome Q :=
  let fidelities := fidelities m in
  if 0 <? length fidelities
  then truediv (Qsum fidelities) (Qnat (length fidelities))
  else Ok 0%Q.

(** Lines 160-161, their exact value. *)
Definition expected_loss_db (attenuation distance_m : R) : R :=
  (attenuation * distance_m)%R.

Definition expected_transmission (attenuation distance_m : R) : R :=
  Rpower 10 (- expected_loss_db attenuation distance_m / 10)%R.

(** *** The same two lines in double precision

    A double is a representable real ([+0.0] and [-0.0] are both
    [DFinite 0]: none of the operations below tells them apart), an
    infinity or NaN. *)

Definition pow2 (e : Z) : R := powerRZ 2 e.

(** The finite binary64 numbers: a significand below [2^53] in
    magnitude times a power of two between [2^-1074] and [2^971]. *)
Definition representable (x : R) : Prop :=
  ∃ m e : Z, x = (IZR m * pow2 e)%R ∧ (Z.abs m < 2 ^ 53)%Z ∧ (-1074 <= e <= 971)%Z.

Inductive double : Type :=
  | DFinite (x : R)
  | DInf (negative : bool)
  | DNaN.

(** The largest finite double plus half a unit in its last place: from
    there on a result rounds to an infinity. *)
Definition overflow_threshold : R := (pow2 1024 - pow2 970)%R.

(** [r] is a double nearest to the real [x] (a tie leaves two). *)
Definition nearest (x r : R) : Prop :=
  representable r ∧ ∀ r', representable r' → (Rabs (x - r) <= Rabs (x - r'))%R.

(** Rounding to nearest of the exact result [x] of an operation. *)
Definition rounds_to (x : R) (d : double) : Prop :=
  match d with
  | DFinite r => (Rabs x < overflow_threshold)%R ∧ nearest x r
  | DInf negative =>
      (overflow_threshold <= Rabs x)%R ∧ (negative = true ↔ (x < 0)%R)
  | DNaN => False
  end.

(** [a * b] *)
Definition double_mul (a b r : double) : Prop :=
  match a, b with
  | DNaN, _ | _, DNaN => r = DNaN
  | DFinite x, DFinite y => rounds_to (x * y) r
  | DInf s, DInf t => r = DInf (xorb s t)
  | DInf s, DFinite y | DFinite y, DInf s =>
      (y = 0%R ∧ r = DNaN)
      ∨ ((0 < y)%R ∧ r = DInf s)
      ∨ ((y < 0)%R ∧ r = DInf (negb s))
  end.

(** [-a] *)
Definition double_neg (a : double) : double :=
  match a with
  | DFinite x => DFinite (- x)
  | DInf s => DInf (negb s)
  | DNaN => DNaN
  end.

(** [a / 10] *)
Definition double_div10 (a r : double) : Prop :=
  match a with
  | DFinite x => rounds_to (x / 10) r
  | DInf s => r = DInf s
  | DNaN => r = DNaN
  end.

(** What [10 ** y] does: it returns a double, or raises [OverflowError]
    when the power of a finite [y] is too large for a double. *)
Inductive pow_outcome : Type :=
  | PowValue (d : double)
  | PowOverflowError.

(** [10 ** y], the power taken as correctly rounded: [10 ** -inf] is
    [0.0], [10 ** inf] is [inf], [10 ** nan] is [nan], and a power too
    small for a double underflows to [0.0] without an error. *)
Definition pow10 (y : double) (res : pow_outcome) : Prop :=
  match y with
  | DNaN => res = PowValue DNaN
  | DInf true => res = PowValue (DFinite 0)
  | DInf false => res = PowValue (DInf false)
  | DFinite q =>
      ((overflow_threshold <= Rpower 10 q)%R ∧ res = PowOverflowError)
      ∨ ∃ d, rounds_to (Rpower 10 q) d ∧ res = PowValue d
  end.

(** Lines 160-161 on doubles: [res] is what
    [10 ** (-(attenuation * distance_m) / 10)] evaluates to. *)
Definition expected_transmission_double (attenuation distance_m : double)
    (res : pow_outcome) : Prop :=
  ∃ expected_loss_db y,
    double_mul attenuation distance_m expected_loss_db
    ∧ double_div10 (double_neg expected_loss_db) y
    ∧ pow10 y res.


(** * Invariants, and the properties the claims speak of *)

(** [Event_le a b]: [b < a] is false, i.e. [a.time <= b.time]. *)
Definition Event_le (a b : Event) : Prop := Event_lt b a = false.

(** The heap invariant of heapq: no element is smaller than its parent,
    [heap[(i-1)>>1] <= heap[i]] for every [i > 0]. *)
Definition heap_ok (h : list Event) : Prop :=
  ∀ i a p, 0 < i → h !! i = Some a → h !! ((i - 1) / 2) = Some p → Event_le p a.

(** What holds of the list while [newitem] is out of it and the slot
    [pos] is free: every parent/child pair not ending in [pos] is ordered,
    the children of [pos] are above [newitem] and above the parent of
    [pos]. *)
Definition down_inv (h : list Event) (pos : nat) (x : Event) : Prop :=
  (∀ i a p, 0 < i → i ≠ pos →
     h !! i = Some a → h !! ((i - 1) / 2) = Some p → Event_le p a) ∧
  (∀ i a, 0 < i → (i - 1) / 2 = pos → h !! i = Some a → Event_le x a) ∧
  (∀ i a p, 0 < i → (i - 1) / 2 = pos → 0 < pos →
     h !! i = Some a → h !! ((pos - 1) / 2) = Some p → Event_le p a).

(** While the hole sinks, every parent/child pair whose parent is not the
    hole is ordered, and the children of the hole are above its parent. *)
Definition up_inv (h : list Event) (pos : nat) : Prop :=
  (∀ i a p, 0 < i → (i - 1) / 2 ≠ pos →
     h !! i = Some a → h !! ((i - 1) / 2) = Some p → Event_le p a) ∧
  (∀ i a p, 0 < i → (i - 1) / 2 = pos → 0 < pos →
     h !! i = Some a → h !! ((pos - 1) / 2) = Some p → Event_le p a).

(** The states the class can be in: built by [__init__] and changed only
    through [schedule] and [next_event]. *)
Inductive reachable : EventScheduler → Prop :=
  | reach_init : reachable new_scheduler
  | reach_schedule s e s' :
      reachable s → schedule s e = Ok s' → reachable s'
  | reach_next_event s r s' :
      reachable s → next_event s = Ok (r, s') → reachable s'.

(** Insert [events] into a fresh scheduler, then call [next_event] until
    [has_events] is false; the events in the order they came out. *)
Definition schedule_then_drain (events : list Event) : outcome (list Event) :=
  let* s := schedule_all new_scheduler events in
  let* '(out, _) := drain s in
  Ok out.

(** Equal-time events leave in insertion order: whenever [a] was inserted
    before [b] and they have the same time, [a] comes out before [b]. *)
Definition fifo_on_ties (input output : list Event) : Prop :=
  ∀ i j a b, i < j → input !! i = Some a → input !! j = Some b →
    (time a == time b)%Q →
    ∃ i' j', i' < j' ∧ output !! i' = Some a ∧ output !! j' = Some b.

Definition nondecreasing_time (l : list Event) : Prop :=
  Sorted (λ a b, (time a <= time b)%Q) l.

(** The squared Euclidean norm of a state vector, and its norm. *)
Definition sumsq (v : vector) : R := fold_right Rplus 0%R (map Cnorm2 v).

Definition norm (v : vector) : R := sqrt (sumsq v).


(** The gates the module provides by name. *)
Definition provided_gates : list matrix :=
  [PAULI_X; PAULI_Y; PAULI_Z; HADAMARD].

(** * The benchmark drivers

    The drivers return elapsed wall-clock time; what is modelled is the
    state their loops build. *)

(** The event that [benchmark_insert] and [benchmark_insert_remove]
    create at iteration [i]. *)
Definition benchmark_event (i : nat) : Event :=
  {| time := (inject_Z (Z.of_nat i) * 0.001)%Q;
     event_type := "EntanglementGeneration";
     node_id := (Z.of_nat i mod 10)%Z |}.

Definition benchmark_events (size : nat) : list Event :=
  map benchmark_event (seq 0 size).

(** The scheduler at the end of [benchmark_insert(size)]. *)
Definition benchmark_insert (size : nat) : outcome EventScheduler :=
  schedule_all new_scheduler (benchmark_events size).

(** [benchmark_insert_remove(size)]: the events its [next_event] calls
    return, and the scheduler at the end. *)
Definition benchmark_insert_remove (size : nat)
    : outcome (list Event * EventScheduler) :=
  let* scheduler := schedule_all new_scheduler (benchmark_events size) in
  drain scheduler.

(** [for _ in range(size): state = apply_gate(state, gate)] *)
Fixpoint apply_repeatedly (gate : matrix) (size : nat) (state : vector)
    : outcome vector :=
  match size with
  | 0 => Ok state
  | S n =>
      let* state := apply_gate state gate in
      apply_repeatedly gate n state
  end.

(** The state at the end of the loop of [benchmark_pauli_x(size)] and of
    [benchmark_hadamard(size)]. *)
Definition benchmark_pauli_x (size : nat) : outcome vector :=
  apply_repeatedly PAULI_X size [RtoC 1; RtoC 0].

Definition benchmark_hadamard (size : nat) : outcome vector :=
  apply_repeatedly HADAMARD size [RtoC 1; RtoC 0].

(** Strictly increasing times. *)
Definition increasing_time (l : list Event) : Prop :=
  StronglySorted (λ a b, (time a < time b)%Q) l.

(** * Proofs *)

(** ** The order induced by [Event.__lt__] *)

Lemma Event_lt_Qlt a b : Event_lt a b = true ↔ (time a < time b)%Q.
Proof.
  unfold Event_lt. rewrite Qlt_alt.
  destruct (time a ?= time b)%Q; split; congruence.
Qed.

Lemma Event_le_Qle a b : Event_le a b ↔ (time a <= time b)%Q.
Proof.
  unfold Event_le. rewrite <- Bool.not_true_iff_false, Event_lt_Qlt.
  split; [apply Qnot_lt_le | apply Qle_not_lt].
Qed.

Lemma Event_le_refl a : Event_le a a.
Proof. apply Event_le_Qle, Qle_refl. Qed.

Lemma Event_le_trans a b c : Event_le a b → Event_le b c → Event_le a c.
Proof. rewrite !Event_le_Qle. apply Qle_trans. Qed.

Lemma Event_lt_le a b : Event_lt a b = true → Event_le a b.
Proof. rewrite Event_lt_Qlt, Event_le_Qle. apply Qlt_le_weak. Qed.

(** ** The heap invariant: the root is a minimum *)

Lemma heap_ok_nil : heap_ok [].
Proof. intros i a p _ H. by rewrite lookup_nil in H. Qed.

Lemma heap_ok_root (h : list Event) e :
  heap_ok h → h !! 0 = Some e → ∀ i a, h !! i = Some a → Event_le e a.
Proof.
  intros Hok H0 i. induction i as [i IH] using lt_wf_ind. intros a Ha.
  destruct (decide (i = 0)) as [->|Hi].
  - assert (a = e) as -> by congruence. apply Event_le_refl.
  - assert (Hlt : (i - 1) / 2 < i) by lia.
    assert (is_Some (h !! ((i - 1) / 2))) as [p Hp].
    { apply lookup_lt_is_Some_2. apply lookup_lt_Some in Ha. lia. }
    eapply Event_le_trans; [exact (IH _ Hlt p Hp)|].
    apply (Hok i a p); [lia|done..].
Qed.

Lemma heap_ok_app_inv (h t : list Event) : heap_ok (h ++ t) → heap_ok h.
Proof.
  intros Hok i a p Hi Ha Hp. eapply (Hok i); [done| |].
  - by apply lookup_app_l_Some.
  - by apply lookup_app_l_Some.
Qed.

(** ** List accesses that stay in range *)

Lemma getitem_Some {A} (l : list A) i x : l !! i = Some x → getitem l i = Ok x.
Proof. unfold getitem. by intros ->. Qed.

Lemma setitem_lt {A} (l : list A) i x :
  i < length l → setitem l i x = Ok (<[i:=x]> l).
Proof.
  intros H. unfold setitem.
  by destruct (Nat.ltb_spec i (length l)); [|lia].
Qed.

(** Moving the element at [j] into the hole at [i] and leaving the hole at
    [j] keeps the multiset of the list with the pending item put in the hole. *)
Lemma insert_swap_perm (h : list Event) i j x c :
  i ≠ j → i < length h → h !! j = Some c →
  <[j:=x]> (<[i:=c]> h) ≡ₚ <[i:=x]> h.
Proof.
  intros Hij Hi Hj.
  rewrite <- (list_insert_insert_eq h i c x).
  apply Permutation_insert_swap.
  - by apply list_lookup_insert_eq.
  - by rewrite list_lookup_insert_ne.
Qed.

(** ** [_siftdown]: the hole at [pos] travels towards the root *)

Lemma down_inv_place (h : list Event) pos x :
  down_inv h pos x →
  (pos = 0 ∨ ∃ p, h !! ((pos - 1) / 2) = Some p ∧ Event_le p x) →
  heap_ok (<[pos:=x]> h).
Proof.
  intros (D1 & D2 & _) Hpar i a p Hi Ha Hp.
  apply list_lookup_insert_Some in Ha as [(<- & <- & _)|(Hne & Ha)].
  - destruct Hpar as [->|(q & Hq & Hle)]; [lia|].
    rewrite list_lookup_insert_ne in Hp by lia. congruence.
  - apply list_lookup_insert_Some in Hp as [(Heq & <- & _)|(Hne' & Hp)].
    + eapply D2; eauto.
    + eapply D1; eauto.
Qed.

Lemma down_inv_step (h : list Event) pos x p :
  0 < pos → pos < length h →
  h !! ((pos - 1) / 2) = Some p → Event_lt x p = true →
  down_inv h pos x → down_inv (<[pos:=p]> h) ((pos - 1) / 2) x.
Proof.
  intros Hpos Hlen Hp Hlt (D1 & D2 & D3).
  assert (Hpp : (pos - 1) / 2 < pos) by lia.
  assert (Hxp : Event_le x p) by by apply Event_lt_le.
  repeat split.
  - intros i a q Hi Hne Ha Hq.
    apply list_lookup_insert_Some in Ha as [(<- & <- & _)|(Hne1 & Ha)].
    + rewrite list_lookup_insert_ne in Hq by lia.
      assert (q = p) as -> by congruence. apply Event_le_refl.
    + apply list_lookup_insert_Some in Hq as [(Heq & <- & _)|(Hne2 & Hq)].
      * apply (D3 i a p); [lia|lia|lia|done..].
      * apply (D1 i a q); [lia|lia|done..].
  - intros i a Hi Hpar Ha.
    apply list_lookup_insert_Some in Ha as [(<- & <- & _)|(Hne1 & Ha)]; [done|].
    eapply Event_le_trans; [exact Hxp|].
    apply (D1 i a p); [lia|lia|done|by rewrite Hpar].
  - intros i a q Hi Hpar Hpos' Ha Hq.
    rewrite list_lookup_insert_ne in Hq by lia.
    assert (Hpq : Event_le q p).
    { apply (D1 ((pos - 1) / 2) p q); [lia|lia|done..]. }
    apply list_lookup_insert_Some in Ha as [(<- & <- & _)|(Hne1 & Ha)]; [done|].
    eapply Event_le_trans; [exact Hpq|].
    apply (D1 i a p); [lia|lia|done|by rewrite Hpar].
Qed.

Lemma siftdown_loop_spec fuel : ∀ (h : list Event) pos x,
  pos < length h → pos ≤ fuel →
  ∃ h', siftdown_loop fuel h 0 pos x = Ok h'
        ∧ h' ≡ₚ <[pos:=x]> h
        ∧ (down_inv h pos x → heap_ok h').
Proof.
  induction fuel as [|fuel IH]; intros h pos x Hlen Hfuel.
  - assert (pos = 0) as -> by lia. simpl.
    rewrite setitem_lt by done. eexists; split_and!; [done..|].
    intros D. apply down_inv_place; auto.
  - destruct pos as [|n].
    + simpl. rewrite setitem_lt by done. eexists; split_and!; [done..|].
      intros D. apply down_inv_place; auto.
    + cbn [siftdown_loop]. change (0 <? S n) with true. cbv iota zeta.
      assert (Hpp : (S n - 1) / 2 < S n) by lia.
      assert (is_Some (h !! ((S n - 1) / 2))) as [p Hp].
      { apply lookup_lt_is_Some_2. lia. }
      rewrite (getitem_Some _ _ _ Hp). cbn [bind].
      destruct (Event_lt x p) eqn:Hlt.
      * rewrite setitem_lt by done. cbn [bind].
        destruct (IH (<[S n:=p]> h) ((S n - 1) / 2) x) as (h' & Hrun & Hperm & Hok).
        { rewrite length_insert. lia. }
        { lia. }
        exists h'. split_and!; [done| |].
        -- rewrite Hperm. apply insert_swap_perm; [lia|done|done].
        -- intros D. apply Hok. apply down_inv_step; auto. lia.
      * rewrite setitem_lt by done. eexists; split_and!; [done..|].
        intros D. apply down_inv_place; auto.
        right. exists p. split; [done|]. exact Hlt.
Qed.

(** ** [_siftup]: the hole at [pos] travels to a leaf, then back up *)

Lemma up_inv_step (h : list Event) pos c child :
  pos < length h → 0 < c → (c - 1) / 2 = pos → h !! c = Some child →
  (∀ i a, 0 < i → (i - 1) / 2 = pos → h !! i = Some a → Event_le child a) →
  up_inv h pos → up_inv (<[pos:=child]> h) c.
Proof.
  intros Hlen Hc Hcp Hchild Hmin (U1 & U2). split.
  - intros i a p Hi Hne Ha Hp.
    apply list_lookup_insert_Some in Ha as [(<- & <- & _)|(Hne1 & Ha)].
    + rewrite list_lookup_insert_ne in Hp by lia.
      apply (U2 c child p); [lia|lia|lia|done..].
    + apply list_lookup_insert_Some in Hp as [(Heq & <- & _)|(Hne2 & Hp)].
      * apply (Hmin i a); [lia|lia|done].
      * apply (U1 i a p); [lia|lia|done..].
  - intros i a p Hi Hpar Hc' Ha Hp.
    rewrite Hcp, list_lookup_insert_eq in Hp by done.
    assert (p = child) as -> by congruence.
    rewrite list_lookup_insert_ne in Ha by lia.
    apply (U1 i a child); [lia|lia|done|by rewrite Hpar].
Qed.

Lemma siftup_loop_spec fuel : ∀ (h : list Event) pos x,
  pos < length h → length h - pos ≤ fuel →
  ∃ h' pos', siftup_loop fuel h (length h) pos (2 * pos + 1) = Ok (h', pos')
        ∧ length h' = length h
        ∧ pos' < length h
        ∧ length h ≤ 2 * pos' + 1
        ∧ <[pos':=x]> h' ≡ₚ <[pos:=x]> h
        ∧ (up_inv h pos → up_inv h' pos').
Proof.
  induction fuel as [|fuel IH]; intros h pos x Hlen Hfuel; [lia|].
  cbn [siftup_loop].
  destruct (Nat.ltb_spec (2 * pos + 1) (length h)) as [Hchild|Hleaf].
  2:{ exists h, pos. split_and!; auto. }
  assert (is_Some (h !! (2 * pos + 1))) as [l Hl]
    by by apply lookup_lt_is_Some_2.
  (* the smaller child [c], its value, and why it is the smaller one *)
  assert (∃ c child,
    (if 2 * pos + 1 + 1 <? length h
     then let* l := getitem h (2 * pos + 1) in
          let* r := getitem h (2 * pos + 1 + 1) in
          Ok (if negb (Event_lt l r) then 2 * pos + 1 + 1 else 2 * pos + 1)
     else Ok (2 * pos + 1)) = Ok c
    ∧ 0 < c ∧ (c - 1) / 2 = pos ∧ h !! c = Some child
    ∧ (∀ i a, 0 < i → (i - 1) / 2 = pos → h !! i = Some a → Event_le child a))
    as (c & child & -> & Hc & Hcp & Hcv & Hmin).
  { destruct (Nat.ltb_spec (2 * pos + 1 + 1) (length h)) as [Hright|Hnoright].
    - assert (is_Some (h !! (2 * pos + 1 + 1))) as [r Hr]
        by by apply lookup_lt_is_Some_2.
      rewrite (getitem_Some _ _ _ Hl), (getitem_Some _ _ _ Hr). cbn [bind].
      destruct (Event_lt l r) eqn:Hlr; cbn [negb].
      + exists (2 * pos + 1), l. split_and!; [done|lia|lia|done|].
        intros i a Hi Hpar Ha.
        assert (i = 2 * pos + 1 ∨ i = 2 * pos + 1 + 1) as [->| ->] by lia.
        * assert (a = l) as -> by congruence. apply Event_le_refl.
        * assert (a = r) as -> by congruence. by apply Event_lt_le.
      + exists (2 * pos + 1 + 1), r. split_and!; [done|lia|lia|done|].
        intros i a Hi Hpar Ha.
        assert (i = 2 * pos + 1 ∨ i = 2 * pos + 1 + 1) as [->| ->] by lia.
        * assert (a = l) as -> by congruence. exact Hlr.
        * assert (a = r) as -> by congruence. apply Event_le_refl.
    - exists (2 * pos + 1), l. split_and!; [done|lia|lia|done|].
      intros i a Hi Hpar Ha. apply lookup_lt_Some in Ha as Hlt.
      assert (i = 2 * pos + 1) as -> by lia.
      assert (a = l) as -> by congruence. apply Event_le_refl. }
  cbn [bind]. rewrite (getitem_Some _ _ _ Hcv). cbn [bind].
  rewrite setitem_lt by done. cbn [bind].
  apply lookup_lt_Some in Hcv as Hclt.
  destruct (IH (<[pos:=child]> h) c x) as (h' & pos' & Hrun & Hl' & Hp' & Hleaf' & Hperm & Hinv).
  { rewrite length_insert. lia. }
  { rewrite length_insert. lia. }
  rewrite length_insert in Hrun, Hl', Hp', Hleaf'.
  exists h', pos'. split_and!; [done..| |].
  - rewrite Hperm. apply insert_swap_perm; [lia|done|done].
  - intros U. apply Hinv. by apply up_inv_step.
Qed.

Lemma siftup_spec (h : list Event) :
  0 < length h →
  ∃ h', _siftup h 0 = Ok h' ∧ h' ≡ₚ h ∧ (up_inv h 0 → heap_ok h').
Proof.
  intros Hlen. unfold _siftup.
  assert (is_Some (h !! 0)) as [x Hx] by by apply lookup_lt_is_Some_2.
  rewrite (getitem_Some _ _ _ Hx). cbn [bind].
  destruct (siftup_loop_spec (length h) h 0 x) as
    (h1 & pos1 & Hrun & Hl1 & Hp1 & Hleaf & Hperm & Hinv); [done|lia|].
  change (2 * 0 + 1) with 1 in Hrun. change (2 * 0 + 1) with 1.
  rewrite Hrun. cbn [bind].
  rewrite setitem_lt by lia. cbn [bind].
  unfold _siftdown.
  rewrite (getitem_Some _ pos1 x) by (apply list_lookup_insert_eq; lia).
  cbn [bind].
  destruct (siftdown_loop_spec pos1 (<[pos1:=x]> h1) pos1 x) as (h' & Hdown & Hperm' & Hok).
  { rewrite length_insert. lia. }
  { done. }
  exists h'. split_and!; [done| |].
  - rewrite Hperm', list_insert_insert_eq, Hperm. by rewrite list_insert_id.
  - intros U. apply Hok. destruct (Hinv U) as (U1 & _). repeat split.
    + intros i a p Hi Hne Ha Hp.
      rewrite list_lookup_insert_ne in Ha by done.
      apply lookup_lt_Some in Ha as Hlt.
      rewrite list_lookup_insert_ne in Hp by lia.
      apply (U1 i a p); [lia|lia|done..].
    + intros i a Hi Hpar Ha. apply lookup_lt_Some in Ha.
      rewrite length_insert in Ha. lia.
    + intros i a p Hi Hpar _ Ha. apply lookup_lt_Some in Ha.
      rewrite length_insert in Ha. lia.
Qed.

(** ** [heappush] and [heappop] *)

Lemma heappush_spec (h : list Event) x :
  ∃ h', heappush h x = Ok h' ∧ h' ≡ₚ x :: h ∧ (heap_ok h → heap_ok h').
Proof.
  unfold heappush, _siftdown. rewrite length_app. cbn [length].
  replace (length h + 1 - 1) with (length h) by lia.
  rewrite (getitem_Some _ _ x) by apply list_lookup_middle, eq_refl.
  cbn [bind].
  destruct (siftdown_loop_spec (length h) (h ++ [x]) (length h) x)
    as (h' & Hrun & Hperm & Hok).
  { rewrite length_app. cbn. lia. }
  { done. }
  exists h'. split_and!; [done| |].
  - rewrite Hperm, list_insert_id by apply list_lookup_middle, eq_refl.
    by rewrite Permutation_app_comm.
  - intros Hh. apply Hok. repeat split.
    + intros i a p Hi Hne Ha Hp.
      apply lookup_lt_Some in Ha as Hlt. rewrite length_app in Hlt. cbn in Hlt.
      rewrite lookup_app_l in Ha by lia. rewrite lookup_app_l in Hp by lia.
      by apply (Hh i a p).
    + intros i a Hi Hpar Ha. apply lookup_lt_Some in Ha.
      rewrite length_app in Ha. cbn in Ha. lia.
    + intros i a p Hi Hpar _ Ha. apply lookup_lt_Some in Ha.
      rewrite length_app in Ha. cbn in Ha. lia.
Qed.

Lemma list_pop_snoc {A} (l : list A) z : list_pop (l ++ [z]) = Ok (z, l).
Proof.
  unfold list_pop. rewrite last_snoc, length_app. cbn [length].
  replace (length l + 1 - 1) with (length l) by lia.
  by rewrite take_app_length.
Qed.

Lemma heappop_spec (h : list Event) :
  h ≠ [] →
  ∃ e h', heappop h = Ok (e, h')
          ∧ h !! 0 = Some e
          ∧ h ≡ₚ e :: h'
          ∧ (heap_ok h → heap_ok h').
Proof.
  intros Hne. destruct h as [|y0 t] using rev_ind; [done|]. clear IHt Hne.
  rename t into l, y0 into z.
  unfold heappop. rewrite list_pop_snoc. cbn [bind].
  destruct l as [|y l'].
  - cbn. exists z, []. split_and!; [done..|]. intros _. apply heap_ok_nil.
  - change (0 <? length (y :: l')) with true. cbv iota.
    cbn [getitem lookup list_lookup bind].
    rewrite setitem_lt by (cbn; lia). cbn [bind].
    change (<[0:=z]> (y :: l')) with (z :: l').
    destruct (siftup_spec (z :: l')) as (h' & Hrun & Hperm & Hok); [cbn; lia|].
    rewrite Hrun. cbn [bind].
    exists y, h'. split_and!; [done..| |].
    + rewrite Hperm. cbn. constructor. by rewrite Permutation_app_comm.
    + intros Hh. apply Hok. split.
      * intros i a p Hi Hpar Ha Hp.
        destruct i as [|i]; [lia|].
        destruct ((S i - 1) / 2) as [|j] eqn:Hj; [lia|].
        cbn in Ha, Hp.
        apply (Hh (S i) a p); [lia|..].
        -- cbn. by apply lookup_app_l_Some.
        -- rewrite Hj. cbn. by apply lookup_app_l_Some.
      * intros; lia.
Qed.

(** ** EventScheduler *)

Lemma schedule_spec (s : EventScheduler) e :
  ∃ s', schedule s e = Ok s'
        ∧ queue s' ≡ₚ e :: queue s
        ∧ (heap_ok (queue s) → heap_ok (queue s')).
Proof.
  unfold schedule.
  destruct (heappush_spec (queue s) e) as (h' & -> & Hperm & Hok).
  by exists {| queue := h' |}.
Qed.

Lemma schedule_all_spec events : ∀ s : EventScheduler,
  ∃ s', schedule_all s events = Ok s'
        ∧ queue s' ≡ₚ events ++ queue s
        ∧ (heap_ok (queue s) → heap_ok (queue s')).
Proof.
  induction events as [|e rest IH]; intros s.
  - exists s. by cbn.
  - cbn [schedule_all].
    destruct (schedule_spec s e) as (s1 & -> & Hperm1 & Hok1). cbn [bind].
    destruct (IH s1) as (s' & Hrun & Hperm & Hok).
    exists s'. split_and!; [done| |by auto].
    rewrite Hperm, Hperm1. cbn.
    by rewrite <- Permutation_middle.
Qed.

Lemma next_event_empty (s : EventScheduler) :
  queue s = [] → next_event s = Ok (None, s).
Proof. unfold next_event. by intros ->. Qed.

Lemma next_event_spec (s : EventScheduler) :
  queue s ≠ [] →
  ∃ e s', next_event s = Ok (Some e, s')
          ∧ queue s !! 0 = Some e
          ∧ queue s ≡ₚ e :: queue s'
          ∧ (heap_ok (queue s) → heap_ok (queue s')).
Proof.
  intros Hne. unfold next_event.
  destruct (heappop_spec (queue s) Hne) as (e & h' & -> & H0 & Hperm & Hok).
  destruct (queue s) as [|y l] eqn:Hq; [done|].
  change (0 <? length (y :: l)) with true. cbn.
  by exists e, {| queue := h' |}.
Qed.

Lemma has_events_spec (s : EventScheduler) :
  has_events s = true ↔ queue s ≠ [].
Proof. unfold has_events. by destruct (queue s). Qed.

Lemma reachable_heap_ok s : reachable s → heap_ok (queue s).
Proof.
  induction 1 as [|s e s' _ IH Hrun|s r s' _ IH Hrun].
  - apply heap_ok_nil.
  - destruct (schedule_spec s e) as (s1 & Hrun1 & _ & Hok).
    rewrite Hrun in Hrun1. injection Hrun1 as ->. auto.
  - destruct (decide (queue s = [])) as [Hnil|Hne].
    + rewrite (next_event_empty _ Hnil) in Hrun. by injection Hrun as _ <-.
    + destruct (next_event_spec s Hne) as (e & s1 & Hrun1 & _ & _ & Hok).
      rewrite Hrun in Hrun1. injection Hrun1 as _ ->. auto.
Qed.

Lemma drain_loop_spec fuel : ∀ s : EventScheduler,
  heap_ok (queue s) → length (queue s) ≤ fuel →
  ∃ out s', drain_loop fuel s = Ok (out, s')
            ∧ queue s' = []
            ∧ out ≡ₚ queue s
            ∧ StronglySorted (λ a b, (time a <= time b)%Q) out.
Proof.
  induction fuel as [|fuel IH]; intros s Hok Hfuel.
  - destruct (queue s) as [|y l] eqn:Hq; [|cbn in Hfuel; lia].
    exists [], s. unfold drain_loop, has_events. rewrite Hq. cbn.
    split_and!; [done..|constructor].
  - cbn [drain_loop].
    destruct (has_events s) eqn:Hhas.
    2:{ apply Bool.not_true_iff_false in Hhas. rewrite has_events_spec in Hhas.
        assert (Hq : queue s = []) by by destruct (queue s); [|destruct Hhas].
        exists [], s. rewrite Hq. split_and!; [done..|constructor]. }
    apply has_events_spec in Hhas.
    destruct (next_event_spec s Hhas) as (e & s1 & -> & H0 & Hperm & Hok1).
    cbn [bind].
    destruct (IH s1) as (rest & s' & -> & Hnil & Hperm' & Hsorted); [by auto| |].
    { apply Permutation_length in Hperm. cbn in Hperm. lia. }
    cbn [bind]. exists (e :: rest), s'. split_and!; [done..| |].
    + by rewrite Hperm, Hperm'.
    + constructor; [done|]. apply Forall_forall. intros a Ha.
      assert (a ∈ queue s) as [i Hi]%list_elem_of_lookup.
      { rewrite Hperm, <- Hperm'. by right. }
      apply Event_le_Qle. by eapply heap_ok_root.
Qed.

(** ** Claims about the scheduler *)

(** C1 (as amended).  For every list of events inserted with [schedule]
    into a fresh scheduler, calling [next_event] until [has_events] is
    false terminates without raising, returns exactly the inserted events
    (as a multiset), in non-decreasing time order, and leaves the queue
    empty.  Nothing is promised about the relative order of events with
    equal times. *)
Theorem drain_nondecreasing_permutation (events : list Event) :
  ∃ out, schedule_then_drain events = Ok out
         ∧ out ≡ₚ events
         ∧ nondecreasing_time out.
Proof.
  unfold schedule_then_drain, drain.
  destruct (schedule_all_spec events new_scheduler) as (s & -> & Hperm & Hok).
  cbn [bind].
  destruct (drain_loop_spec (length (queue s)) s) as (out & s' & -> & _ & Hperm' & Hsorted).
  { apply Hok, heap_ok_nil. }
  { done. }
  cbn [bind]. exists out. split_and!; [done| |].
  - rewrite Hperm', Hperm. cbn. by rewrite app_nil_r.
  - by apply StronglySorted_Sorted.
Qed.

(** C1, counterexample.  Insert a (time 1), b (time 1), c (time 0), in
    that order.  Draining returns c, b, a: b leaves before a although a
    was inserted first and both have time 1. *)
Lemma fifo_tie_break_fails :
  let a := ev 1 "a" in
  let b := ev 1 "b" in
  let c := ev 0 "c" in
  schedule_then_drain [a; b; c] = Ok [c; b; a]
  ∧ ¬ fifo_on_ties [a; b; c] [c; b; a].
Proof.
  split; [reflexivity|].
  intros Hfifo.
  destruct (Hfifo 0 1 (ev 1 "a") (ev 1 "b")) as (i' & j' & Hlt & Ha & Hb);
    [lia|reflexivity|reflexivity|reflexivity|].
  destruct i' as [|[|[|i']]]; try discriminate Ha.
  destruct j' as [|[|[|j']]]; try discriminate Hb.
  lia.
Qed.

(** C2 (as amended).  [schedule] makes no causality check and keeps no
    clock: for every scheduler state and every event, whatever its time,
    [schedule] returns normally and the event is in the queue afterwards,
    next to everything that was there before. *)
Theorem schedule_always_inserts (s : EventScheduler) (e : Event) :
  ∃ s', schedule s e = Ok s' ∧ queue s' ≡ₚ e :: queue s.
Proof.
  destruct (schedule_spec s e) as (s' & Hrun & Hperm & _). by exists s'.
Qed.

(** C2, counterexample.  After the event of time 5 has been returned by
    [next_event] (so the clock of any run is at 5), scheduling an event
    of time 1 < 5 raises nothing and puts the event in the queue. *)
Lemma schedule_in_the_past_succeeds :
  let first := ev 5 "first" in
  let late := ev 1 "late" in
  (time late < time first)%Q
  ∧ (let* s1 := schedule new_scheduler first in
     let* '(r, s2) := next_event s1 in
     let* s3 := schedule s2 late in
     Ok (r, s3)) = Ok (Some first, {| queue := [late] |}).
Proof. split; reflexivity. Qed.

(** C10.  In every state the scheduler can reach, [has_events] is true
    exactly when the queue is non-empty; on an empty queue [next_event]
    returns [None] and raises nothing; on a non-empty queue it returns a
    pending event whose time is minimal among the pending ones, and
    removes that one event. *)
Theorem next_event_returns_minimum (s : EventScheduler) :
  reachable s →
  (has_events s = true ↔ queue s ≠ [])
  ∧ (queue s = [] → next_event s = Ok (None, s))
  ∧ (queue s ≠ [] →
     ∃ e s', next_event s = Ok (Some e, s')
             ∧ e ∈ queue s
             ∧ (∀ e', e' ∈ queue s → (time e <= time e')%Q)
             ∧ queue s ≡ₚ e :: queue s').
Proof.
  intros Hreach. apply reachable_heap_ok in Hreach as Hok.
  split_and!.
  - apply has_events_spec.
  - apply next_event_empty.
  - intros Hne.
    destruct (next_event_spec s Hne) as (e & s' & Hrun & H0 & Hperm & _).
    exists e, s'. split_and!; [done| | |done].
    + apply list_elem_of_lookup. by exists 0.
    + intros e' [i Hi]%list_elem_of_lookup.
      apply Event_le_Qle. by eapply heap_ok_root.
Qed.

Lemma next_event_returns_minimum_witness :
  let s := {| queue := [ev 0 "c"; ev 1 "b"; ev 1 "a"] |} in
  reachable s
  ∧ (has_events s = true ↔ queue s ≠ [])
  ∧ (queue s = [] → next_event s = Ok (None, s))
  ∧ (queue s ≠ [] →
     ∃ e s', next_event s = Ok (Some e, s')
             ∧ e ∈ queue s
             ∧ (∀ e', e' ∈ queue s → (time e <= time e')%Q)
             ∧ queue s ≡ₚ e :: queue s').
Proof.
  intros s.
  assert (Hreach : reachable s).
  { apply (reach_schedule {| queue := [ev 1 "a"; ev 1 "b"] |} (ev 0 "c")); [|reflexivity].
    apply (reach_schedule {| queue := [ev 1 "a"] |} (ev 1 "b")); [|reflexivity].
    apply (reach_schedule new_scheduler (ev 1 "a")); [|reflexivity].
    apply reach_init. }
  split; [exact Hreach|].
  exact (next_event_returns_minimum s Hreach).
Defined.

(** ** Complex arithmetic *)

Section QuantumFacts.
Local Open Scope R_scope.

Lemma Cnorm2_nonneg z : 0 <= Cnorm2 z.
Proof. unfold Cnorm2. nra. Qed.

Lemma Cnorm2_conj z : Cnorm2 (Cconj z) = Cnorm2 z.
Proof. unfold Cnorm2, Cconj. cbn. ring. Qed.

Lemma Cnorm2_mul z w : Cnorm2 (Cmul z w) = Cnorm2 z * Cnorm2 w.
Proof. unfold Cnorm2, Cmul. cbn. ring. Qed.

Lemma Cnorm2_zero : Cnorm2 (RtoC 0) = 0.
Proof. unfold Cnorm2. cbn. ring. Qed.

Lemma Cabs_sq z : Cabs z ^ 2 = Cnorm2 z.
Proof.
  unfold Cabs. rewrite <- Rsqr_pow2. apply Rsqr_sqrt, Cnorm2_nonneg.
Qed.

Lemma complex_eq z w : re z = re w → im z = im w → z = w.
Proof. destruct z, w. cbn. by intros -> ->. Qed.

Lemma Cconj_add z w : Cconj (Cadd z w) = Cadd (Cconj z) (Cconj w).
Proof. apply complex_eq; cbn; ring. Qed.

Lemma Cconj_mul_conj z w : Cconj (Cmul (Cconj z) w) = Cmul (Cconj w) z.
Proof. apply complex_eq; cbn; ring. Qed.

Lemma sumsq_cons z v : sumsq (z :: v) = Cnorm2 z + sumsq v.
Proof. reflexivity. Qed.

Lemma sumsq_nonneg v : 0 <= sumsq v.
Proof.
  induction v as [|z v IH]; [unfold sumsq; cbn; lra|].
  rewrite sumsq_cons. pose proof (Cnorm2_nonneg z). lra.
Qed.

Lemma norm_one_sumsq v : norm v = 1 → sumsq v = 1.
Proof.
  unfold norm. intros H.
  rewrite <- (sqrt_sqrt (sumsq v)) by apply sumsq_nonneg.
  rewrite H. ring.
Qed.

(** ** The inner product computed by [np.vdot] *)


Lemma dot_conj_swap a : ∀ b,
  length a = length b →
  dot (map Cconj b) a = Cconj (dot (map Cconj a) b).
Proof.
  induction a as [|x a IH]; intros [|y b] Hlen; try discriminate Hlen.
  - apply complex_eq; cbn; ring.
  - cbn [map dot]. rewrite Cconj_add, Cconj_mul_conj, IH; [done|].
    by injection Hlen.
Qed.

Lemma dot_conj_self v :
  dot (map Cconj v) v = RtoC (sumsq v).
Proof.
  induction v as [|z v IH]; [reflexivity|].
  cbn [map dot]. rewrite IH, sumsq_cons.
  apply complex_eq; unfold Cnorm2; cbn; ring.
Qed.

(** One step of the Cauchy-Schwarz induction, on real and imaginary
    parts. *)
Lemma cauchy_schwarz_step (zr zi wr wi P Q A B : R) :
  0 <= P → 0 <= Q → 0 <= A → 0 <= B →
  zr * zr + zi * zi = P * Q →
  wr * wr + wi * wi <= A * B →
  (zr + wr) * (zr + wr) + (zi + wi) * (zi + wi) <= (P + A) * (Q + B).
Proof.
  intros HP HQ HA HB Hz Hw.
  assert (H1 : (zr * wr + zi * wi) * (zr * wr + zi * wi) <= (P * Q) * (A * B)).
  { rewrite <- Hz.
    apply Rle_trans with ((zr * zr + zi * zi) * (wr * wr + wi * wi)).
    - pose proof (Rle_0_sqr (zr * wi - zi * wr)) as Hsq.
      unfold Rsqr in Hsq. lra.
    - apply Rmult_le_compat_l; nra. }
  assert (H2 : 4 * ((P * Q) * (A * B)) <= (P * B + Q * A) * (P * B + Q * A)).
  { pose proof (Rle_0_sqr (P * B - Q * A)) as Hsq. unfold Rsqr in Hsq. lra. }
  assert (H3 : 0 <= P * B + Q * A) by nra.
  assert (H4 : 2 * (zr * wr + zi * wi) <= P * B + Q * A) by nra.
  nra.
Qed.

Lemma dot_conj_cauchy_schwarz a : ∀ b,
  Cnorm2 (dot (map Cconj a) b) <= sumsq a * sumsq b.
Proof.
  induction a as [|x a IH]; intros [|y b]; cbn [map dot];
    try (rewrite Cnorm2_zero; apply Rmult_le_pos; apply sumsq_nonneg).
  specialize (IH b). rewrite !sumsq_cons.
  pose proof (Cnorm2_mul (Cconj x) y) as Hm. rewrite Cnorm2_conj in Hm.
  pose proof (Cnorm2_nonneg x). pose proof (Cnorm2_nonneg y).
  pose proof (sumsq_nonneg a). pose proof (sumsq_nonneg b).
  unfold Cnorm2 at 1. unfold Cadd. cbn [re im].
  apply cauchy_schwarz_step; auto.
Qed.

Lemma fidelity_eq (a b : vector) :
  length a = length b →
  fidelity a b = Ok (Cnorm2 (dot (map Cconj a) b)).
Proof.
  intros Hlen. unfold fidelity, vdot.
  rewrite Hlen, Nat.eqb_refl. cbn [bind]. by rewrite Cabs_sq.
Qed.

Lemma half_sqrt2 : 1 / sqrt 2 * (1 / sqrt 2) = 1 / 2.
Proof.
  assert (Hs : sqrt 2 * sqrt 2 = 2) by (apply sqrt_sqrt; lra).
  assert (Hn : sqrt 2 ≠ 0) by (intros H; rewrite H in Hs; lra).
  replace (1 / sqrt 2 * (1 / sqrt 2)) with (1 / (sqrt 2 * sqrt 2))
    by (field; done).
  by rewrite Hs.
Qed.

Lemma gate_norm_result (gate : matrix) (a b : complex) (out : vector) :
  apply_gate [a; b] gate = Ok out →
  sumsq out = sumsq [a; b] →
  ∃ out, apply_gate [a; b] gate = Ok out
         ∧ norm out = norm [a; b]
         ∧ Rabs (norm out - norm [a; b]) <= 1 / 10 ^ 9.
Proof.
  intros Hrun Hsq. exists out. split; [done|].
  assert (Heq : norm out = norm [a; b]) by (unfold norm; by rewrite Hsq).
  split; [done|].
  rewrite Heq, Rminus_diag, Rabs_R0. lra.
Qed.

(** ** Claims about the quantum-state primitives *)

(** C3.  For each of the gates PAULI_X, PAULI_Y, PAULI_Z and HADAMARD and
    every two-dimensional complex state vector, [apply_gate] returns a
    vector whose Euclidean norm equals that of the state; the two norms
    are therefore within 1e-9 of each other. *)
Theorem provided_gates_preserve_norm :
  Forall (λ gate, ∀ a b : complex,
            ∃ out, apply_gate [a; b] gate = Ok out
                   ∧ norm out = norm [a; b]
                   ∧ Rabs (norm out - norm [a; b]) <= 1 / 10 ^ 9)
         provided_gates.
Proof.
  unfold provided_gates. repeat apply Forall_cons_2; [..|apply Forall_nil_2];
    intros [ar ai] [br bi];
    (eapply gate_norm_result; [reflexivity|]);
    unfold sumsq, Cnorm2; cbn.
  - ring.
  - ring.
  - ring.
  - pose proof half_sqrt2 as Ht. set (t := 1 / sqrt 2) in *. clearbody t. nra.
Qed.

(** C4.  For every normalized state [s], [fidelity s s] is exactly 1; and
    for every two states of equal dimension, [fidelity a b] and
    [fidelity b a] are the same. *)
Theorem fidelity_self_and_symmetric (s a b : vector) :
  norm s = 1 →
  length a = length b →
  fidelity s s = Ok 1 ∧ fidelity a b = fidelity b a.
Proof.
  intros Hnorm Hlen. split.
  - rewrite fidelity_eq by done. f_equal.
    rewrite dot_conj_self, (norm_one_sumsq s Hnorm).
    unfold Cnorm2. cbn. ring.
  - rewrite !fidelity_eq by done. f_equal.
    by rewrite (dot_conj_swap a b), Cnorm2_conj.
Qed.


(** C6.  For every two states whose dimensions differ, [fidelity] raises
    instead of returning a value.  The exception is the [ValueError] that
    [np.vdot] raises on vectors of different lengths; it is the failure
    the specification calls DimensionMismatch. *)
Theorem fidelity_dimension_mismatch (state_a state_b : vector) :
  length state_a ≠ length state_b →
  fidelity state_a state_b = Raise ValueError.
Proof.
  intros Hne. unfold fidelity, vdot.
  apply Nat.eqb_neq in Hne. by rewrite Hne.
Qed.

Lemma norm_basis_state : norm [RtoC 1; RtoC 0] = 1 ∧ norm [RtoC 0; RtoC 1] = 1.
Proof.
  unfold norm, sumsq, Cnorm2. cbn.
  split; (etransitivity; [|apply sqrt_1]); f_equal; ring.
Qed.

Lemma fidelity_self_and_symmetric_witness :
  let s := [RtoC 1; RtoC 0] in
  let a := [RtoC 1; RtoC 0] in
  let b := [RtoC 0; RtoC 1] in
  norm s = 1
  ∧ length a = length b
  ∧ fidelity s s = Ok 1
  ∧ fidelity a b = fidelity b a.
Proof.
  cbv zeta. split; [apply norm_basis_state|]. split; [reflexivity|].
  apply (fidelity_self_and_symmetric [RtoC 1; RtoC 0] [RtoC 1; RtoC 0] [RtoC 0; RtoC 1]).
  - apply norm_basis_state.
  - reflexivity.
Defined.


Lemma fidelity_dimension_mismatch_witness :
  let qubit := [RtoC 1; RtoC 0] in
  let pair := [RtoC 1; RtoC 0; RtoC 0; RtoC 1] in
  length qubit ≠ length pair
  ∧ fidelity qubit pair = Raise ValueError.
Proof.
  cbv zeta. split; [cbn; lia|].
  apply (fidelity_dimension_mismatch [RtoC 1; RtoC 0] [RtoC 1; RtoC 0; RtoC 0; RtoC 1]).
  cbn. lia.
Defined.

End QuantumFacts.

(** ** Claims about the outcome tracker and the statistics *)

Lemma truediv_nonzero (x y : Q) : ¬ (y == 0)%Q → truediv x y = Ok (x / y)%Q.
Proof.
  intros Hy. unfold truediv.
  destruct (Qeq_bool y 0) eqn:E; [|done].
  by apply Qeq_bool_iff in E.
Qed.

Lemma Qnat_pos (n : nat) : 0 < n → ¬ (Qnat n == 0)%Q.
Proof.
  intros Hn. unfold Qnat, Qeq. cbn. lia.
Qed.

Lemma Qgtb_spec (x y : Q) : Qgtb x y = true ↔ (y < x)%Q.
Proof.
  unfold Qgtb. rewrite Qlt_alt.
  destruct (y ?= x)%Q; split; congruence.
Qed.

Lemma success_rate_spec (m : SimpleManager) :
  success_rate m =
  Ok (match ent_counter m + raw_counter m with
      | 0 => 0%Q
      | S _ => (Qnat (ent_counter m) / Qnat (ent_counter m + raw_counter m))%Q
      end).
Proof.
  unfold success_rate.
  destruct (ent_counter m + raw_counter m) as [|n] eqn:E; [done|].
  change (0 <? S n) with true. cbv iota.
  apply truediv_nonzero, Qnat_pos. lia.
Qed.

Lemma avg_fidelity_total (m : SimpleManager) :
  ∃ f, avg_fidelity m = Ok f ∧ (fidelities m = [] → f = 0%Q).
Proof.
  unfold avg_fidelity. destruct (fidelities m) as [|x l]; [by exists 0%Q|].
  change (0 <? length (x :: l)) with true. cbv iota.
  rewrite truediv_nonzero by (apply Qnat_pos; cbn; lia).
  eexists. split; [done|]. discriminate.
Qed.

Lemma throughput_total (m : SimpleManager) (now : Q) :
  ∃ t, throughput m now = Ok t ∧ ((now == 0)%Q → t = 0%Q).
Proof.
  unfold throughput. rewrite truediv_nonzero by done. cbn [bind].
  destruct (Qgtb (now / 1e12) 0) eqn:E.
  - apply Qgtb_spec in E.
    rewrite truediv_nonzero by (intros H0; rewrite H0 in E; by apply Qlt_irrefl in E).
    eexists. split; [done|]. intros Hnow.
    assert (Hz : (now / 1e12 == 0)%Q) by (rewrite Hnow; reflexivity).
    rewrite Hz in E. by apply Qlt_irrefl in E.
  - by exists 0%Q.
Qed.

(** C7.  None of the three statistics raises, whatever the counters, the
    recorded fidelities and the elapsed simulated time: [success_rate] is
    [ent_counter / (ent_counter + raw_counter)] when at least one attempt
    is recorded and 0 when none is; the average fidelity is 0 when no
    fidelity is recorded; the throughput is 0 when the elapsed simulated
    time is zero. *)
Theorem statistics_are_total (m : SimpleManager) (now : Q) :
  (∃ r f t, success_rate m = Ok r ∧ avg_fidelity m = Ok f ∧ throughput m now = Ok t)
  ∧ (0 < ent_counter m + raw_counter m →
     success_rate m = Ok (Qnat (ent_counter m) / Qnat (ent_counter m + raw_counter m))%Q)
  ∧ (ent_counter m + raw_counter m = 0 → success_rate m = Ok 0%Q)
  ∧ (fidelities m = [] → avg_fidelity m = Ok 0%Q)
  ∧ ((now == 0)%Q → throughput m now = Ok 0%Q).
Proof.
  destruct (avg_fidelity_total m) as (f & Hf & Hf0).
  destruct (throughput_total m now) as (t & Ht & Ht0).
  pose proof (success_rate_spec m) as Hr.
  split_and!.
  - eexists _, f, t. by rewrite Hr.
  - intros Hpos. rewrite Hr.
    destruct (ent_counter m + raw_counter m); [lia|done].
  - intros Hzero. by rewrite Hr, Hzero.
  - intros Hnil. by rewrite Hf, (Hf0 Hnil).
  - intros Hnow. by rewrite Ht, (Ht0 Hnow).
Qed.

Section DoubleFacts.
Local Open Scope R_scope.

Lemma pow2_pos e : 0 < pow2 e.
Proof. apply powerRZ_lt. lra. Qed.

Lemma pow2_add a b : pow2 (a + b) = pow2 a * pow2 b.
Proof. apply powerRZ_add. lra. Qed.

Lemma pow2_nonneg_exp (z : Z) : (0 <= z)%Z → pow2 z = IZR (2 ^ z).
Proof.
  intros Hz. unfold pow2.
  rewrite <- (Z2Nat.id z Hz), <- pow_powerRZ, pow_IZR. reflexivity.
Qed.

Lemma pow2_le a b : (a <= b)%Z → pow2 a <= pow2 b.
Proof.
  intros Hab. replace b with (a + (b - a))%Z by lia.
  rewrite pow2_add, (pow2_nonneg_exp (b - a)) by lia.
  assert (1 <= IZR (2 ^ (b - a))).
  { apply IZR_le. assert (0 < 2 ^ (b - a))%Z by (apply Z.pow_pos_nonneg; lia). lia. }
  pose proof (pow2_pos a). nra.
Qed.

Lemma pow2_neg_exp (z : Z) : (0 <= z)%Z → pow2 (- z) = / IZR (2 ^ z).
Proof.
  intros Hz. rewrite <- pow2_nonneg_exp by done.
  unfold pow2. apply powerRZ_neg'.
Qed.

Lemma representable_0 : representable 0.
Proof. exists 0%Z, 0%Z. split; [lra|]. split; [reflexivity|lia]. Qed.

Lemma representable_IZR (k : Z) : (Z.abs k < 2 ^ 53)%Z → representable (IZR k).
Proof.
  intros Hk. exists k, 0%Z. split; [|split; [done|lia]].
  unfold pow2. cbn. lra.
Qed.

Lemma representable_opp r : representable r → representable (- r).
Proof.
  intros (m & e & -> & Hm & He). exists (- m)%Z, e.
  split; [rewrite opp_IZR; ring|]. split; [lia|done].
Qed.

Lemma representable_lattice r :
  representable r →
  ∃ k : Z, r = IZR k * pow2 (-1074) ∧ (Z.abs k < 2 ^ 2098)%Z.
Proof.
  intros (m & e & -> & Hm & He).
  exists (m * 2 ^ (e + 1074))%Z. split.
  - rewrite mult_IZR, <- pow2_nonneg_exp by lia.
    rewrite Rmult_assoc, <- pow2_add. do 2 f_equal. lia.
  - rewrite Z.abs_mul.
    assert (0 < 2 ^ (e + 1074))%Z by (apply Z.pow_pos_nonneg; lia).
    assert (2 ^ (e + 1074) <= 2 ^ 2045)%Z by (apply Z.pow_le_mono_r; lia).
    rewrite (Z.abs_eq (2 ^ (e + 1074))) by lia.
    change (2 ^ 2098)%Z with (2 ^ 53 * 2 ^ 2045)%Z.
    nia.
Qed.

Lemma argmin_list (f : Z → R) (P : Z → Prop) (l : list Z) :
  (∃ k, k ∈ l ∧ P k) →
  ∃ k, k ∈ l ∧ P k ∧ ∀ k', k' ∈ l → P k' → f k <= f k'.
Proof.
  induction l as [|a l IH]; intros (k & Hk & HP).
  - by apply elem_of_nil in Hk.
  - destruct (classic (∃ k, k ∈ l ∧ P k)) as [Hl|Hnone].
    + destruct (IH Hl) as (k0 & Hk0 & HP0 & Hmin).
      destruct (classic (P a)) as [Ha|Hna].
      * destruct (Rle_or_lt (f a) (f k0)) as [Hle|Hlt].
        -- exists a. split_and!; [by left|done|].
           intros k' [->|Hk']%elem_of_cons HP'; [lra|].
           specialize (Hmin k' Hk' HP'). lra.
        -- exists k0. split_and!; [by right|done|].
           intros k' [->|Hk']%elem_of_cons HP'; [lra|by apply Hmin].
      * exists k0. split_and!; [by right|done|].
        intros k' [->|Hk']%elem_of_cons HP'; [done|by apply Hmin].
    + apply elem_of_cons in Hk as [->|Hk]; [|exfalso; eauto].
      exists a. split_and!; [by left|done|].
      intros k' [->|Hk']%elem_of_cons HP'; [lra|exfalso; eauto].
Qed.

Lemma nearest_exists (x : R) : ∃ r, nearest x r.
Proof.
  destruct (argmin_list (λ k, Rabs (x - IZR k * pow2 (-1074)))
              (λ k, representable (IZR k * pow2 (-1074)))
              (seqZ (- 2 ^ 2098) (2 * 2 ^ 2098 + 1)))
    as (k & _ & Hrep & Hmin).
  { exists 0%Z. split; [apply elem_of_seqZ; lia|].
    rewrite Rmult_0_l. apply representable_0. }
  exists (IZR k * pow2 (-1074)). split; [done|].
  intros r' Hr'. destruct (representable_lattice r' Hr') as (k' & -> & Hk').
  apply Hmin; [apply elem_of_seqZ; lia|done].
Qed.

Lemma rounds_to_exists (x : R) : ∃ d, rounds_to x d.
Proof.
  destruct (Rlt_or_le (Rabs x) overflow_threshold) as [Hsmall|Hbig].
  - destruct (nearest_exists x) as [r Hr]. by exists (DFinite r).
  - destruct (Rlt_or_le x 0) as [Hneg|Hpos].
    + exists (DInf true). split; [done|]. by split.
    + exists (DInf false). split; [done|]. split; [discriminate|lra].
Qed.

Lemma Rabs_le_inv (a b : R) : Rabs a <= b → - b <= a <= b.
Proof. unfold Rabs. destruct (Rcase_abs a); lra. Qed.

(** The result of rounding is at least as close to [x] as any
    representable number. *)
Lemma nearest_closer x r c :
  nearest x r → representable c → Rabs (x - r) <= Rabs (x - c).
Proof. intros [_ Hmin]. apply Hmin. Qed.

Lemma nearest_nonneg x r : 0 <= x → nearest x r → 0 <= r.
Proof.
  intros Hx Hr. pose proof (nearest_closer x r 0 Hr representable_0) as H.
  rewrite Rminus_0_r, (Rabs_pos_eq x) in H by done.
  apply Rabs_le_inv in H. lra.
Qed.

Lemma nearest_nonpos x r : x <= 0 → nearest x r → r <= 0.
Proof.
  intros Hx Hr. pose proof (nearest_closer x r 0 Hr representable_0) as H.
  rewrite Rminus_0_r, (Rabs_left1 x) in H by done.
  apply Rabs_le_inv in H. lra.
Qed.

Lemma nearest_le_1 x r : x <= 1 → nearest x r → r <= 1.
Proof.
  intros Hx Hr.
  assert (H1 : representable 1) by (apply (representable_IZR 1); reflexivity).
  pose proof (nearest_closer x r 1 Hr H1) as H.
  rewrite (Rabs_left1 (x - 1)) in H by lra.
  apply Rabs_le_inv in H. lra.
Qed.

Lemma representable_bound r : representable r → Rabs r < pow2 1024.
Proof.
  intros (m & e & -> & Hm & He).
  rewrite Rabs_mult, (Rabs_pos_eq (pow2 e)) by (left; apply pow2_pos).
  rewrite <- abs_IZR.
  assert (IZR (Z.abs m) <= IZR (2 ^ 53 - 1)) by (apply IZR_le; lia).
  assert (pow2 e <= pow2 971) by (apply pow2_le; lia).
  assert (pow2 1024 = IZR (2 ^ 53) * pow2 971).
  { rewrite <- pow2_nonneg_exp by lia. rewrite <- pow2_add. f_equal. }
  assert (0 <= IZR (Z.abs m)) by (apply IZR_le; lia).
  pose proof (pow2_pos e). pose proof (pow2_pos 971).
  rewrite minus_IZR in *. nra.
Qed.

Lemma overflow_threshold_eq : overflow_threshold = (IZR (2 ^ 54) - 1) * pow2 970.
Proof.
  unfold overflow_threshold.
  replace 1024%Z with (54 + 970)%Z by reflexivity.
  rewrite pow2_add, (pow2_nonneg_exp 54) by lia. ring.
Qed.

Lemma overflow_threshold_large : 2 ^ 53 <= overflow_threshold.
Proof.
  rewrite overflow_threshold_eq.
  assert (1 <= pow2 970).
  { rewrite <- (powerRZ_O 2). apply pow2_le. lia. }
  assert (2 ^ 53 <= IZR (2 ^ 54) - 1).
  { rewrite pow_IZR, <- (minus_IZR _ 1). apply IZR_le. lia. }
  assert (0 < 2 ^ 53) by (apply pow_lt; lra).
  nra.
Qed.

Lemma tenth_below_threshold r : representable r → Rabs (r / 10) < overflow_threshold.
Proof.
  intros Hr. apply representable_bound in Hr.
  rewrite overflow_threshold_eq.
  assert (pow2 1024 = IZR (2 ^ 54) * pow2 970).
  { rewrite <- pow2_nonneg_exp by lia. rewrite <- pow2_add. f_equal. }
  assert (4 <= IZR (2 ^ 54)).
  { change 4 with (IZR 4). apply IZR_le. lia. }
  pose proof (pow2_pos 970).
  unfold Rdiv. rewrite Rabs_mult, (Rabs_pos_eq (/ 10)) by lra.
  nra.
Qed.

Lemma Rpower10_range q : q <= 0 → 0 < Rpower 10 q <= 1.
Proof.
  intros Hq. split; [apply exp_pos|].
  rewrite <- (Rpower_O 10) by lra. apply Rle_Rpower; lra.
Qed.

(** C8 (as amended).  For every non-negative finite attenuation and
    non-negative finite distance, given as doubles, the computation of
    [10 ** (-(attenuation * distance_m) / 10)] returns a double, raises
    nothing, and the double lies in the closed interval from 0 to 1. *)
Theorem expected_transmission_double_range (attenuation distance_m : R) :
  representable attenuation → representable distance_m →
  0 <= attenuation → 0 <= distance_m →
  (∃ res, expected_transmission_double (DFinite attenuation) (DFinite distance_m) res)
  ∧ ∀ res,
      expected_transmission_double (DFinite attenuation) (DFinite distance_m) res →
      ∃ t, res = PowValue (DFinite t) ∧ 0 <= t <= 1.
Proof.
  intros _ _ Ha Hd. split.
  - destruct (rounds_to_exists (attenuation * distance_m)) as [loss Hloss].
    assert (∃ y, double_div10 (double_neg loss) y) as [y Hy].
    { destruct loss as [p|s|]; cbn.
      - apply rounds_to_exists.
      - by eexists.
      - by eexists. }
    assert (∃ res, pow10 y res) as [res Hres].
    { destruct y as [q|[]|]; cbn; [|by eexists..].
      destruct (rounds_to_exists (Rpower 10 q)) as [d Hd']. eauto. }
    exists res, loss, y. done.
  - intros res (loss & y & Hloss & Hy & Hres).
    assert (Hprod : 0 <= attenuation * distance_m) by by apply Rmult_le_pos.
    cbn in Hloss.
    (* the exponent is a non-positive number or minus infinity *)
    assert (Hy' : y = DInf true ∨ ∃ q, y = DFinite q ∧ q <= 0).
    { destruct loss as [p|s|]; cbn in Hloss; [| |done].
      - destruct Hloss as [_ Hp]. apply nearest_nonneg in Hp as Hp0; [|done].
        cbn in Hy. destruct y as [q|s|]; cbn in Hy; [| |done].
        + right. exists q. split; [done|].
          destruct Hy as [_ Hq]. apply nearest_nonpos in Hq; [done|lra].
        + destruct Hy as [Hbig _]. destruct Hp as [Hrep _].
          apply representable_opp, tenth_below_threshold in Hrep. lra.
      - destruct Hloss as [_ Hs]. cbn in Hy. subst y. left.
        destruct s; [|done]. destruct Hs as [Hs _]. specialize (Hs eq_refl). lra. }
    destruct Hy' as [->|(q & -> & Hq)]; cbn in Hres.
    + exists 0. split; [done|lra].
    + pose proof (Rpower10_range q Hq) as [Hpos Hle].
      pose proof overflow_threshold_large as Hthr.
      assert (1 <= 2 ^ 53) by (apply pow_R1_Rle; lra).
      destruct Hres as [[Hbig _]|(d & Hd' & ->)]; [lra|].
      destruct d as [t|s|]; cbn in Hd'; [| |done].
      * destruct Hd' as [_ Ht]. exists t. split; [done|]. split.
        -- apply (nearest_nonneg (Rpower 10 q)); [lra|done].
        -- by apply (nearest_le_1 (Rpower 10 q)).
      * destruct Hd' as [Hbig _]. rewrite Rabs_pos_eq in Hbig by lra. lra.
Qed.

Lemma representable_nonzero_lower r :
  representable r → r ≠ 0 → pow2 (-1074) <= Rabs r.
Proof.
  intros (m & e & -> & Hm & He) Hne.
  assert (m ≠ 0%Z) by (intros ->; apply Hne; ring).
  rewrite Rabs_mult, (Rabs_pos_eq (pow2 e)) by (left; apply pow2_pos).
  rewrite <- abs_IZR.
  assert (1 <= IZR (Z.abs m)) by (apply IZR_le; lia).
  assert (pow2 (-1074) <= pow2 e) by (apply pow2_le; lia).
  pose proof (pow2_pos (-1074)). nra.
Qed.

(** A non-negative number below half of the smallest positive double
    rounds to zero, and to nothing else. *)
Lemma tiny_rounds_to_zero x :
  0 <= x → 2 * x < pow2 (-1074) →
  nearest x 0 ∧ ∀ t, nearest x t → t = 0.
Proof.
  intros Hx Htiny.
  assert (Hfar : ∀ r, representable r → r ≠ 0 → x < Rabs (x - r)).
  { intros r Hr Hne. pose proof (representable_nonzero_lower r Hr Hne) as Hlow.
    pose proof (Rabs_triang_inv r x) as Htri.
    rewrite (Rabs_pos_eq x), (Rabs_minus_sym r x) in Htri by done. lra. }
  split.
  - split; [apply representable_0|]. intros r' Hr'.
    rewrite Rminus_0_r, (Rabs_pos_eq x) by done.
    destruct (Req_dec r' 0) as [->|Hne].
    + rewrite Rminus_0_r, Rabs_pos_eq by done. lra.
    + left. by apply Hfar.
  - intros t Ht. destruct (Req_dec t 0) as [->|Hne]; [done|].
    pose proof (nearest_closer x t 0 Ht representable_0) as Hc.
    rewrite Rminus_0_r, (Rabs_pos_eq x) in Hc by done.
    destruct Ht as [Hrep _]. pose proof (Hfar t Hrep Hne). lra.
Qed.

Lemma Rpower10_below_399 q : q <= -399 → 2 * Rpower 10 q < pow2 (-1074).
Proof.
  intros Hq.
  assert (Hle : Rpower 10 q <= / 10 ^ 399).
  { rewrite <- (Rpower_pow 399 10), <- Rpower_Ropp by lra.
    apply Rle_Rpower; [lra|].
    rewrite INR_IZR_INZ. change (Z.of_nat 399) with 399%Z. lra. }
  replace (pow2 (-1074)) with (/ IZR (2 ^ 1074))
    by (symmetry; apply (pow2_neg_exp 1074); lia).
  rewrite pow_IZR in Hle. change (Z.of_nat 399) with 399%Z in Hle.
  assert (HA : 0 < IZR (10 ^ 399)) by (apply IZR_lt; reflexivity).
  assert (HB : 0 < IZR (2 ^ 1074)) by (apply IZR_lt; reflexivity).
  assert (HAB : 2 * IZR (2 ^ 1074) < IZR (10 ^ 399)).
  { rewrite <- mult_IZR. apply IZR_lt. reflexivity. }
  assert (2 * / IZR (10 ^ 399) < / IZR (2 ^ 1074)).
  { replace (2 * / IZR (10 ^ 399)) with (/ (IZR (10 ^ 399) / 2)) by (field; lra).
    apply Rinv_lt_contravar; [apply Rmult_lt_0_compat|]; lra. }
  lra.
Qed.

(** C8, counterexample.  The attenuation is the double written 0.0002,
    which is 7378697629483821 / 2^65, and the distance is 2e7.  The loss
    rounds to about 4000, the exponent to about -400, and 10 ** -400 is
    below half of the smallest positive double, so the result is exactly
    0.0, which is not in (0, 1]. *)
Lemma expected_transmission_underflows :
  let attenuation := 7378697629483821 / 36893488147419103232 in
  let distance_m := 20000000 in
  representable attenuation
  ∧ representable distance_m
  ∧ 0 <= attenuation
  ∧ 0 <= distance_m
  ∧ expected_transmission_double (DFinite attenuation) (DFinite distance_m)
      (PowValue (DFinite 0))
  ∧ (∀ res,
      expected_transmission_double (DFinite attenuation) (DFinite distance_m) res →
      res = PowValue (DFinite 0))
  ∧ ¬ (0 < 0 <= 1).
Proof.
  cbv zeta.
  set (a := 7378697629483821 / 36893488147419103232).
  pose proof overflow_threshold_large as Hthr.
  assert (H53 : 2 ^ 53 = 9007199254740992) by (rewrite pow_IZR; apply f_equal; reflexivity).
  rewrite H53 in Hthr.
  (* what every run goes through *)
  assert (Hloss : ∀ loss, double_mul (DFinite a) (DFinite 20000000) loss →
            ∃ p, loss = DFinite p ∧ 3999 <= p <= 4001).
  { intros [p|s|] Hl; cbn in Hl; [| |done].
    - exists p. split; [done|]. destruct Hl as [_ Hp].
      assert (H4000 : representable 4000) by (apply (representable_IZR 4000); reflexivity).
      pose proof (nearest_closer _ _ _ Hp H4000) as Hc.
      assert (Hx : Rabs (a * 20000000 - 4000) <= 1 / 2).
      { apply Rabs_le. unfold a. lra. }
      pose proof (Rabs_le_inv _ _ Hx). apply Rabs_le_inv in Hc. lra.
    - destruct Hl as [Hbig _].
      assert (Rabs (a * 20000000) <= 4001) by (apply Rabs_le; unfold a; lra).
      lra. }
  assert (Hy : ∀ p y, 3999 <= p <= 4001 → double_div10 (double_neg (DFinite p)) y →
            ∃ q, y = DFinite q ∧ q <= -399).
  { intros p [q|s|] Hp Hq; cbn in Hq; [| |done].
    - exists q. split; [done|]. destruct Hq as [_ Hq].
      assert (H400 : representable (-400)) by (apply (representable_IZR (-400)); reflexivity).
      pose proof (nearest_closer _ _ _ Hq H400) as Hc.
      assert (Hx : Rabs (- p / 10 - -400) <= 1 / 2) by (apply Rabs_le; lra).
      pose proof (Rabs_le_inv _ _ Hx). apply Rabs_le_inv in Hc. lra.
    - destruct Hq as [Hbig _].
      assert (Rabs (- p / 10) <= 4001) by (apply Rabs_le; lra).
      lra. }
  assert (Hres : ∀ q, q <= -399 →
            pow10 (DFinite q) (PowValue (DFinite 0))
            ∧ ∀ res, pow10 (DFinite q) res → res = PowValue (DFinite 0)).
  { intros q Hq. pose proof (Rpower10_range q ltac:(lra)) as [Hpos Hle].
    pose proof (Rpower10_below_399 q Hq) as Htiny.
    destruct (tiny_rounds_to_zero (Rpower 10 q) ltac:(lra) Htiny) as [Hzero Huniq].
    split.
    - right. exists (DFinite 0). split; [|done]. split; [|done].
      rewrite Rabs_pos_eq by lra. lra.
    - intros res [[Hbig _]|(d & Hd & ->)]; [lra|].
      destruct d as [t|s|]; cbn in Hd; [| |done].
      + destruct Hd as [_ Ht]. by rewrite (Huniq t Ht).
      + destruct Hd as [Hbig _]. rewrite Rabs_pos_eq in Hbig by lra. lra. }
  split_and!.
  - exists 7378697629483821%Z, (-65)%Z. split; [|split; [reflexivity|lia]].
    replace (pow2 (-65)) with (/ IZR (2 ^ 65))
      by (symmetry; apply (pow2_neg_exp 65); lia).
    change (2 ^ 65)%Z with 36893488147419103232%Z. reflexivity.
  - apply (representable_IZR 20000000). reflexivity.
  - unfold a. lra.
  - lra.
  - destruct (rounds_to_exists (a * 20000000)) as [loss Hl].
    destruct (Hloss loss Hl) as (p & -> & Hp).
    destruct (rounds_to_exists (- p / 10)) as [y Hq].
    destruct (Hy p y Hp Hq) as (q & -> & Hq').
    exists (DFinite p), (DFinite q). split_and!; [done..|].
    by apply Hres.
  - intros res (loss & y & Hl & Hq & Hr).
    destruct (Hloss loss Hl) as (p & -> & Hp).
    destruct (Hy p y Hp Hq) as (q & -> & Hq').
    by apply (Hres q Hq').
  - lra.
Qed.

Lemma expected_transmission_double_range_witness :
  representable 1 ∧ representable 1000 ∧ 0 <= 1 ∧ 0 <= 1000
  ∧ (∃ res, expected_transmission_double (DFinite 1) (DFinite 1000) res)
  ∧ ∀ res,
      expected_transmission_double (DFinite 1) (DFinite 1000) res →
      ∃ t, res = PowValue (DFinite t) ∧ 0 <= t <= 1.
Proof.
  assert (H1 : representable 1) by (apply (representable_IZR 1); reflexivity).
  assert (H2 : representable 1000) by (apply (representable_IZR 1000); reflexivity).
  assert (H3 : 0 <= 1) by lra.
  assert (H4 : 0 <= 1000) by lra.
  split; [exact H1|]. split; [exact H2|]. split; [exact H3|]. split; [exact H4|].
  exact (expected_transmission_double_range 1 1000 H1 H2 H3 H4).
Defined.
End DoubleFacts.

Section SequenceFacts.

Variable Memory : Type.
Variable memory_fidelity : Memory → Q.
Variable memory_reset : Memory → Memory.
Variable Protocol : Type.

Lemma update_step (self : SimpleManager) (protocol : Protocol)
    (memory : Memory) (state : string) :
  let self' := fst (update memory_fidelity memory_reset self protocol memory state) in
  (state = "RAW"
   ∧ raw_counter self' = raw_counter self + 1
   ∧ ent_counter self' = ent_counter self
   ∧ fidelities self' = fidelities self)
  ∨ (state ≠ "RAW"
     ∧ raw_counter self' = raw_counter self
     ∧ ent_counter self' = ent_counter self + 1
     ∧ fidelities self' = fidelities self ++ [memory_fidelity memory]).
Proof.
  unfold update. destruct (String.eqb_spec state "RAW") as [->|Hne]; cbn.
  - by left.
  - by right.
Qed.

Lemma updates_spec (calls : list (Protocol * Memory * string)) :
  ∀ self : SimpleManager,
  raw_counter (updates memory_fidelity memory_reset self calls)
    + ent_counter (updates memory_fidelity memory_reset self calls)
    = raw_counter self + ent_counter self + length calls
  ∧ fidelities (updates memory_fidelity memory_reset self calls)
    = fidelities self ++ recorded memory_fidelity calls.
Proof.
  induction calls as [|[[protocol memory] state] rest IH]; intros self.
  - cbn. split; [lia|by rewrite app_nil_r].
  - cbn [updates].
    destruct (IH (fst (update memory_fidelity memory_reset self protocol memory state)))
      as [Hc Hf].
    rewrite Hc, Hf. clear IH Hc Hf.
    unfold recorded, update. cbn.
    destruct (String.eqb state "RAW"); cbn.
    + split; [lia|done].
    + split; [lia|]. by rewrite <- app_assoc.
Qed.

(** C9.  One call of [update] adds exactly 1 to exactly one of the two
    counters, and appends the memory's fidelity to the history exactly
    when the outcome is not RAW; after any sequence of calls on a fresh
    manager the counters add up to the number of calls, and the history
    held before the calls is still there, in the same order, as a prefix
    of the new one. *)
Theorem update_counts_and_appends
    (self : SimpleManager) (protocol : Protocol) (memory : Memory)
    (state : string) (calls : list (Protocol * Memory * string)) (name : string) :
  let self' := fst (update memory_fidelity memory_reset self protocol memory state) in
  ((raw_counter self' = raw_counter self + 1 ∧ ent_counter self' = ent_counter self)
   ∨ (raw_counter self' = raw_counter self ∧ ent_counter self' = ent_counter self + 1))
  ∧ fidelities self' =
      fidelities self ++ (if decide (state = "RAW") then [] else [memory_fidelity memory])
  ∧ raw_counter (updates memory_fidelity memory_reset (new_manager name) calls)
      + ent_counter (updates memory_fidelity memory_reset (new_manager name) calls)
      = length calls
  ∧ fidelities (updates memory_fidelity memory_reset self calls)
      = fidelities self ++ recorded memory_fidelity calls
  ∧ fidelities self `prefix_of`
      fidelities (updates memory_fidelity memory_reset self calls).
Proof.
  intros self'. split_and!.
  - destruct (update_step self protocol memory state) as [(_ & ? & ? & _)|(_ & ? & ? & _)];
      [by left|by right].
  - destruct (update_step self protocol memory state) as [(Hs & _ & _ & Hf)|(Hs & _ & _ & Hf)];
      fold self' in Hf; rewrite Hf; case_decide; try done.
    by rewrite app_nil_r.
  - by destruct (updates_spec calls (new_manager name)) as [-> _].
  - by destruct (updates_spec calls self) as [_ ->].
  - destruct (updates_spec calls self) as [_ ->]. by apply prefix_app_r.
Qed.

End SequenceFacts.

(** * Further properties of the scheduler *)

Lemma nondecreasing_time_strong (l : list Event) :
  nondecreasing_time l → StronglySorted (λ a b, (time a <= time b)%Q) l.
Proof.
  apply Sorted_StronglySorted. intros a b c. apply Qle_trans.
Qed.

(** Pushing an item that is not smaller than its parent moves nothing. *)
Lemma heappush_append (h : list Event) e :
  (∀ x, x ∈ h → (time x <= time e)%Q) →
  heappush h e = Ok (h ++ [e]).
Proof.
  intros Hle. unfold heappush, _siftdown. rewrite length_app. cbn [length].
  replace (length h + 1 - 1) with (length h) by lia.
  assert (Hlast : (h ++ [e]) !! length h = Some e)
    by apply list_lookup_middle, eq_refl.
  rewrite (getitem_Some _ _ _ Hlast). cbn [bind].
  assert (Hset : setitem (h ++ [e]) (length h) e = Ok (h ++ [e])).
  { rewrite setitem_lt by (rewrite length_app; cbn; lia).
    by rewrite list_insert_id. }
  destruct (length h) as [|n] eqn:Hn; [exact Hset|].
  cbn [siftdown_loop]. change (0 <? S n) with true. cbv iota zeta.
  assert (is_Some (h !! ((S n - 1) / 2))) as [p Hp].
  { apply lookup_lt_is_Some_2. lia. }
  rewrite (getitem_Some _ _ p) by by apply lookup_app_l_Some.
  cbn [bind].
  assert (Hlt : Event_lt e p = false).
  { apply Event_le_Qle, Hle, list_elem_of_lookup. eauto. }
  rewrite Hlt. exact Hset.
Qed.

Lemma schedule_all_append events : ∀ s : EventScheduler,
  StronglySorted (λ a b, (time a <= time b)%Q) events →
  (∀ x e, x ∈ queue s → e ∈ events → (time x <= time e)%Q) →
  schedule_all s events = Ok {| queue := queue s ++ events |}.
Proof.
  induction events as [|e rest IH]; intros s Hsorted Hbelow.
  - cbn. rewrite app_nil_r. by destruct s.
  - apply StronglySorted_inv in Hsorted as [Hrest Hall].
    rewrite Forall_forall in Hall.
    cbn [schedule_all]. unfold schedule.
    rewrite heappush_append by (intros x Hx; apply Hbelow; [done|by left]).
    cbn [bind]. rewrite IH; [|done|].
    + cbn [queue]. by rewrite <- app_assoc.
    + cbn [queue]. intros x e' [Hx|Hx]%elem_of_app He'.
      * apply Hbelow; [done|by right].
      * apply list_elem_of_singleton in Hx as ->. by apply Hall.
Qed.

Lemma schedule_all_fresh_sorted (events : list Event) :
  StronglySorted (λ a b, (time a <= time b)%Q) events →
  schedule_all new_scheduler events = Ok {| queue := events |}.
Proof.
  intros Hsorted. rewrite schedule_all_append; [done..|].
  intros x e Hx. cbn in Hx. by apply elem_of_nil in Hx.
Qed.

(** A list sorted by time that is a permutation of a list with strictly
    increasing times is that list. *)
Lemma sorted_permutation_unique (l : list Event) : ∀ out,
  increasing_time l →
  StronglySorted (λ a b, (time a <= time b)%Q) out →
  out ≡ₚ l →
  out = l.
Proof.
  induction l as [|x l IH]; intros out Hinc Hsorted Hperm.
  - by apply Permutation_nil_r in Hperm.
  - destruct out as [|y out].
    { by apply Permutation_nil_cons in Hperm. }
    apply StronglySorted_inv in Hinc as [Hinc Hx].
    apply StronglySorted_inv in Hsorted as [Hsorted Hy].
    rewrite Forall_forall in Hx, Hy.
    assert (y = x) as ->.
    { assert (Hyin : y ∈ x :: l) by (rewrite <- Hperm; by left).
      apply elem_of_cons in Hyin as [->|Hyl]; [done|].
      assert (Hxin : x ∈ y :: out) by (rewrite Hperm; by left).
      apply elem_of_cons in Hxin as [->|Hxo]; [done|].
      specialize (Hx y Hyl). specialize (Hy x Hxo).
      exfalso. by apply (Qlt_not_le _ _ Hx). }
    f_equal. apply IH; [done..|].
    by apply Permutation_cons_inv in Hperm.
Qed.

Lemma increasing_time_nondecreasing (l : list Event) :
  increasing_time l → StronglySorted (λ a b, (time a <= time b)%Q) l.
Proof.
  unfold increasing_time. induction 1 as [|x l _ IH Hx]; constructor; [done|].
  eapply Forall_impl; [exact Hx|]. intros y. apply Qlt_le_weak.
Qed.

(** X1.  [schedule] and [next_event] keep the heapq invariant: on a queue
    in which no element is smaller than its parent, both return normally
    and leave such a queue. *)
Theorem scheduler_keeps_heap_invariant (s : EventScheduler) (e : Event) :
  heap_ok (queue s) →
  (∃ s', schedule s e = Ok s' ∧ heap_ok (queue s'))
  ∧ (∃ r s', next_event s = Ok (r, s') ∧ heap_ok (queue s')).
Proof.
  intros Hok. split.
  - destruct (schedule_spec s e) as (s' & Hrun & _ & Hok'). eauto.
  - destruct (decide (queue s = [])) as [Hnil|Hne].
    + exists None, s. by rewrite next_event_empty.
    + destruct (next_event_spec s Hne) as (x & s' & Hrun & _ & _ & Hok'). eauto.
Qed.

Lemma scheduler_keeps_heap_invariant_witness :
  let s := {| queue := [ev 0 "c"; ev 1 "b"; ev 1 "a"] |} in
  let e := ev (1 # 2) "d" in
  heap_ok (queue s)
  ∧ (∃ s', schedule s e = Ok s' ∧ heap_ok (queue s'))
  ∧ (∃ r s', next_event s = Ok (r, s') ∧ heap_ok (queue s')).
Proof.
  cbv zeta.
  assert (Hok : heap_ok [ev 0 "c"; ev 1 "b"; ev 1 "a"]).
  { intros i a p Hi Ha Hp.
    destruct i as [|[|[|i]]]; [lia| | |discriminate Ha];
      cbn in Ha, Hp; injection Ha as <-; injection Hp as <-; reflexivity. }
  split; [exact Hok|].
  exact (scheduler_keeps_heap_invariant
           {| queue := [ev 0 "c"; ev 1 "b"; ev 1 "a"] |} (ev (1 # 2) "d") Hok).
Defined.

(** X2.  Whatever the queue holds, [next_event] raises nothing: it
    returns the first element of the list ([None] on an empty one), and
    the events left are the other events, none lost and none added. *)
Theorem next_event_returns_head (s : EventScheduler) :
  ∃ s', next_event s = Ok (queue s !! 0, s')
        ∧ match queue s !! 0 with
          | Some e => queue s ≡ₚ e :: queue s'
          | None => s' = s
          end.
Proof.
  destruct (decide (queue s = [])) as [Hnil|Hne].
  - exists s. rewrite next_event_empty by done. by rewrite Hnil.
  - destruct (next_event_spec s Hne) as (e & s' & Hrun & H0 & Hperm & _).
    exists s'. by rewrite H0.
Qed.

(** X3.  From every state reached by any interleaving of [schedule] and
    [next_event] calls, the loop [while has_events(): next_event()]
    terminates without raising, returns exactly the pending events in
    non-decreasing time order, and leaves the queue empty. *)
Theorem drain_reachable_sorted (s : EventScheduler) :
  reachable s →
  ∃ out s', drain s = Ok (out, s')
            ∧ queue s' = []
            ∧ has_events s' = false
            ∧ out ≡ₚ queue s
            ∧ nondecreasing_time out.
Proof.
  intros Hreach. unfold drain.
  destruct (drain_loop_spec (length (queue s)) s)
    as (out & s' & Hrun & Hnil & Hperm & Hsorted).
  { by apply reachable_heap_ok. }
  { done. }
  exists out, s'. split_and!; [done..| |done|].
  - unfold has_events. by rewrite Hnil.
  - by apply StronglySorted_Sorted.
Qed.

Lemma drain_reachable_sorted_witness :
  let s := {| queue := [ev 0 "c"; ev 1 "b"; ev 1 "a"] |} in
  reachable s
  ∧ ∃ out s', drain s = Ok (out, s')
              ∧ queue s' = []
              ∧ has_events s' = false
              ∧ out ≡ₚ queue s
              ∧ nondecreasing_time out.
Proof.
  cbv zeta.
  assert (Hreach : reachable {| queue := [ev 0 "c"; ev 1 "b"; ev 1 "a"] |}).
  { apply (reach_schedule {| queue := [ev 1 "a"; ev 1 "b"] |} (ev 0 "c")); [|reflexivity].
    apply (reach_schedule {| queue := [ev 1 "a"] |} (ev 1 "b")); [|reflexivity].
    apply (reach_schedule new_scheduler (ev 1 "a")); [|reflexivity].
    apply reach_init. }
  split; [exact Hreach|].
  exact (drain_reachable_sorted _ Hreach).
Defined.

(** X4.  When events are scheduled in non-decreasing time order into a
    fresh scheduler, no insertion moves anything: the queue is the list
    of events in insertion order. *)
Theorem schedule_sorted_input_appends (events : list Event) :
  nondecreasing_time events →
  schedule_all new_scheduler events = Ok {| queue := events |}.
Proof.
  intros Hsorted.
  by apply schedule_all_fresh_sorted, nondecreasing_time_strong.
Qed.

Lemma schedule_sorted_input_appends_witness :
  let events := [ev 1 "a"; ev 1 "b"; ev 2 "c"] in
  nondecreasing_time events
  ∧ schedule_all new_scheduler events = Ok {| queue := events |}.
Proof.
  cbv zeta.
  assert (Hs : nondecreasing_time [ev 1 "a"; ev 1 "b"; ev 2 "c"]).
  { unfold nondecreasing_time. repeat constructor; cbn; discriminate. }
  split; [exact Hs|].
  exact (schedule_sorted_input_appends _ Hs).
Defined.

(** X5.  When the events inserted into a fresh scheduler have strictly
    increasing times, draining returns them in exactly the order they
    were inserted. *)
Theorem drain_increasing_input_is_fifo (events : list Event) :
  increasing_time events →
  schedule_then_drain events = Ok events.
Proof.
  intros Hinc. unfold schedule_then_drain, drain.
  pose proof (schedule_all_fresh_sorted events
                (increasing_time_nondecreasing events Hinc)) as Hall.
  rewrite Hall. cbn [bind queue].
  destruct (drain_loop_spec (length events) {| queue := events |})
    as (out & s' & -> & _ & Hperm & Hsorted).
  { destruct (schedule_all_spec events new_scheduler) as (s1 & Hrun & _ & Hok).
    rewrite Hall in Hrun. injection Hrun as <-. apply Hok, heap_ok_nil. }
  { done. }
  cbn [bind]. f_equal.
  by apply sorted_permutation_unique.
Qed.

Lemma drain_increasing_input_is_fifo_witness :
  let events := [ev 1 "a"; ev 2 "b"; ev 3 "c"] in
  increasing_time events
  ∧ schedule_then_drain events = Ok events.
Proof.
  cbv zeta.
  assert (Hs : increasing_time [ev 1 "a"; ev 2 "b"; ev 3 "c"]).
  { unfold increasing_time. repeat constructor. }
  split; [exact Hs|].
  exact (drain_increasing_input_is_fifo _ Hs).
Defined.

Lemma StronglySorted_map_seq {A} (R : A → A → Prop) (f : nat → A) n : ∀ a,
  (∀ i j, i < j → R (f i) (f j)) →
  StronglySorted R (map f (seq a n)).
Proof.
  induction n as [|n IH]; intros a Hmono; cbn; constructor; [by apply IH|].
  apply Forall_forall. intros y Hy.
  apply list_elem_of_In, in_map_iff in Hy as (j & <- & Hj).
  apply in_seq in Hj. apply Hmono. lia.
Qed.

Lemma benchmark_events_increasing (size : nat) :
  increasing_time (benchmark_events size).
Proof.
  apply StronglySorted_map_seq. intros i j Hij.
  unfold benchmark_event, Qlt. cbn. lia.
Qed.

(** X6.  [benchmark_insert(size)] leaves the queue holding its [size]
    events in creation order, and [benchmark_insert_remove(size)] gets
    them back from [next_event] in creation order, ending with an empty
    queue. *)
Theorem benchmark_drains_in_creation_order (size : nat) :
  benchmark_insert size = Ok {| queue := benchmark_events size |}
  ∧ length (benchmark_events size) = size
  ∧ ∃ s', benchmark_insert_remove size = Ok (benchmark_events size, s')
          ∧ has_events s' = false.
Proof.
  pose proof (schedule_all_fresh_sorted (benchmark_events size)
    (increasing_time_nondecreasing _ (benchmark_events_increasing size))) as Hall.
  split_and!.
  - exact Hall.
  - unfold benchmark_events. by rewrite length_map, length_seq.
  - unfold benchmark_insert_remove, drain. rewrite Hall. cbn [bind queue].
    destruct (drain_loop_spec (length (benchmark_events size))
                {| queue := benchmark_events size |})
      as (out & s' & Hrun & Hnil & Hperm & Hsorted).
    { destruct (schedule_all_spec (benchmark_events size) new_scheduler)
        as (s1 & Hrun & _ & Hok).
      rewrite Hall in Hrun. injection Hrun as <-. apply Hok, heap_ok_nil. }
    { done. }
    exists s'. rewrite Hrun. split.
    + do 2 f_equal.
      apply sorted_permutation_unique;
        [apply benchmark_events_increasing|done..].
    + unfold has_events. by rewrite Hnil.
Qed.

(** X7.  In a reachable state, scheduling an event that is strictly
    earlier than every pending event and then calling [next_event] gives
    that event back and leaves the pending events as they were. *)
Theorem schedule_earliest_then_next_event (s : EventScheduler) (e : Event) :
  reachable s →
  (∀ x, x ∈ queue s → (time e < time x)%Q) →
  ∃ s1 s2, schedule s e = Ok s1
           ∧ next_event s1 = Ok (Some e, s2)
           ∧ queue s2 ≡ₚ queue s.
Proof.
  intros Hreach Hearly. apply reachable_heap_ok in Hreach as Hok.
  destruct (schedule_spec s e) as (s1 & Hrun1 & Hperm1 & Hok1).
  assert (Hne : queue s1 ≠ []).
  { intros Hnil. rewrite Hnil in Hperm1. by apply Permutation_nil_cons in Hperm1. }
  destruct (next_event_spec s1 Hne) as (e' & s2 & Hrun2 & H0 & Hperm2 & _).
  assert (e' = e) as ->.
  { assert (Hin : e' ∈ e :: queue s).
    { rewrite <- Hperm1. apply list_elem_of_lookup. eauto. }
    apply elem_of_cons in Hin as [->|Hin]; [done|].
    assert (He : e ∈ queue s1) by (rewrite Hperm1; by left).
    apply list_elem_of_lookup in He as [i Hi].
    pose proof (heap_ok_root _ _ (Hok1 Hok) H0 i e Hi) as Hle.
    apply Event_le_Qle in Hle. specialize (Hearly e' Hin).
    exfalso. by apply (Qlt_not_le _ _ Hearly). }
  exists s1, s2. split_and!; [done..|].
  rewrite Hperm1 in Hperm2. by apply Permutation_cons_inv in Hperm2.
Qed.

Lemma schedule_earliest_then_next_event_witness :
  let s := {| queue := [ev 1 "a"; ev 2 "b"] |} in
  let e := ev 0 "c" in
  reachable s
  ∧ (∀ x, x ∈ queue s → (time e < time x)%Q)
  ∧ ∃ s1 s2, schedule s e = Ok s1
             ∧ next_event s1 = Ok (Some e, s2)
             ∧ queue s2 ≡ₚ queue s.
Proof.
  cbv zeta.
  assert (Hreach : reachable {| queue := [ev 1 "a"; ev 2 "b"] |}).
  { apply (reach_schedule {| queue := [ev 1 "a"] |} (ev 2 "b")); [|reflexivity].
    apply (reach_schedule new_scheduler (ev 1 "a")); [|reflexivity].
    apply reach_init. }
  assert (Hearly : ∀ x, x ∈ [ev 1 "a"; ev 2 "b"] → (time (ev 0 "c") < time x)%Q).
  { intros x Hx. repeat (apply elem_of_cons in Hx as [->|Hx]; [reflexivity|]).
    by apply elem_of_nil in Hx. }
  split; [exact Hreach|]. split; [exact Hearly|].
  exact (schedule_earliest_then_next_event _ _ Hreach Hearly).
Defined.

(** * Further properties of the quantum-state primitives *)

Section GateFacts.
Local Open Scope R_scope.

Lemma vec2_eq (x1 x2 y1 y2 : complex) :
  re x1 = re y1 → im x1 = im y1 → re x2 = re y2 → im x2 = im y2 →
  [x1; x2] = [y1; y2].
Proof.
  intros H1 H2 H3 H4.
  by rewrite (complex_eq x1 y1 H1 H2), (complex_eq x2 y2 H3 H4).
Qed.

Lemma apply_twice_result (gate : matrix) (a b c d e f : complex) :
  apply_gate [a; b] gate = Ok [c; d] →
  apply_gate [c; d] gate = Ok [e; f] →
  re e = re a → im e = im a → re f = re b → im f = im b →
  ∃ mid, apply_gate [a; b] gate = Ok mid ∧ apply_gate mid gate = Ok [a; b].
Proof.
  intros H1 H2 ? ? ? ?. exists [c; d]. split; [done|].
  rewrite H2. f_equal. by apply vec2_eq.
Qed.

Lemma PAULI_X_twice (a b : complex) :
  ∃ mid, apply_gate [a; b] PAULI_X = Ok mid ∧ apply_gate mid PAULI_X = Ok [a; b].
Proof.
  eapply apply_twice_result; [reflexivity|reflexivity|..]; cbn; ring.
Qed.

Lemma PAULI_Y_twice (a b : complex) :
  ∃ mid, apply_gate [a; b] PAULI_Y = Ok mid ∧ apply_gate mid PAULI_Y = Ok [a; b].
Proof.
  eapply apply_twice_result; [reflexivity|reflexivity|..]; cbn; ring.
Qed.

Lemma PAULI_Z_twice (a b : complex) :
  ∃ mid, apply_gate [a; b] PAULI_Z = Ok mid ∧ apply_gate mid PAULI_Z = Ok [a; b].
Proof.
  eapply apply_twice_result; [reflexivity|reflexivity|..]; cbn; ring.
Qed.

Lemma HADAMARD_twice (a b : complex) :
  ∃ mid, apply_gate [a; b] HADAMARD = Ok mid ∧ apply_gate mid HADAMARD = Ok [a; b].
Proof.
  pose proof half_sqrt2 as Ht.
  eapply apply_twice_result; [reflexivity|reflexivity|..]; cbn;
    set (t := 1 / sqrt 2) in *; clearbody t;
    match goal with
    | |- _ = ?r => transitivity (2 * (t * t) * r); [ring|rewrite Ht; lra]
    end.
Qed.

(** X8.  Each of the gates PAULI_X, PAULI_Y, PAULI_Z and HADAMARD is its
    own inverse: applying it twice to a two-dimensional state gives the
    state back. *)
Theorem provided_gates_are_involutions :
  Forall (λ gate, ∀ a b : complex,
            ∃ mid, apply_gate [a; b] gate = Ok mid
                   ∧ apply_gate mid gate = Ok [a; b])
         provided_gates.
Proof.
  unfold provided_gates. repeat apply Forall_cons_2; [..|apply Forall_nil_2].
  - apply PAULI_X_twice.
  - apply PAULI_Y_twice.
  - apply PAULI_Z_twice.
  - apply HADAMARD_twice.
Qed.

Lemma gate_fidelity_result (gate : matrix) (a1 a2 b1 b2 : complex) (ga gb : vector) :
  apply_gate [a1; a2] gate = Ok ga →
  apply_gate [b1; b2] gate = Ok gb →
  length ga = length gb →
  dot (map Cconj ga) gb = dot (map Cconj [a1; a2]) [b1; b2] →
  ∃ ga gb, apply_gate [a1; a2] gate = Ok ga
           ∧ apply_gate [b1; b2] gate = Ok gb
           ∧ fidelity ga gb = fidelity [a1; a2] [b1; b2].
Proof.
  intros Ha Hb Hlen Hdot. exists ga, gb. split_and!; [done..|].
  rewrite !fidelity_eq by done. by rewrite Hdot.
Qed.

(** X9.  Applying the same provided gate to two two-dimensional states
    does not change their fidelity. *)
Theorem provided_gates_preserve_fidelity :
  Forall (λ gate, ∀ a1 a2 b1 b2 : complex,
            ∃ ga gb, apply_gate [a1; a2] gate = Ok ga
                     ∧ apply_gate [b1; b2] gate = Ok gb
                     ∧ fidelity ga gb = fidelity [a1; a2] [b1; b2])
         provided_gates.
Proof.
  pose proof half_sqrt2 as Ht.
  unfold provided_gates. repeat apply Forall_cons_2; [..|apply Forall_nil_2];
    intros [a1r a1i] [a2r a2i] [b1r b1i] [b2r b2i];
    (eapply gate_fidelity_result; [reflexivity|reflexivity|reflexivity|]);
    apply complex_eq; cbn.
  1-6: ring.
  all: set (t := 1 / sqrt 2) in *; clearbody t;
    match goal with
    | |- _ = ?r => transitivity (2 * (t * t) * r); [ring|rewrite Ht; field]
    end.
Qed.

(** X10.  A provided gate accepts exactly the states of dimension 2: it
    returns a state of dimension 2 for them and raises [ValueError] for
    a state of any other dimension. *)
Theorem provided_gates_need_dimension_two :
  Forall (λ gate, ∀ state : vector,
            (length state = 2%nat →
             ∃ out, apply_gate state gate = Ok out ∧ length out = 2%nat)
            ∧ (length state ≠ 2%nat → apply_gate state gate = Raise ValueError))
         provided_gates.
Proof.
  unfold provided_gates. repeat apply Forall_cons_2; [..|apply Forall_nil_2];
    intros state;
    unfold apply_gate, matmul, PAULI_X, PAULI_Y, PAULI_Z, HADAMARD, scale;
    cbn [forallb length map];
    destruct (Nat.eqb_spec 2 (length state)) as [Heq|Hne]; cbn [andb];
    (split; [intros Hlen|intros Hlen]);
    first [lia | done | by eexists].
Qed.

(** X11.  For two states of equal dimension, normalized or not,
    [fidelity] returns a non-negative number that is at most the product
    of the squared norms of the two states. *)
Theorem fidelity_cauchy_schwarz (a b : vector) :
  length a = length b →
  ∃ f, fidelity a b = Ok f ∧ 0 <= f <= sumsq a * sumsq b.
Proof.
  intros Hlen. exists (Cnorm2 (dot (map Cconj a) b)). split_and!.
  - by apply fidelity_eq.
  - apply Cnorm2_nonneg.
  - apply dot_conj_cauchy_schwarz.
Qed.

Lemma fidelity_cauchy_schwarz_witness :
  let a := [RtoC 3; RtoC 0] in
  let b := [RtoC 1; RtoC 1] in
  length a = length b
  ∧ ∃ f, fidelity a b = Ok f ∧ 0 <= f <= sumsq a * sumsq b.
Proof.
  cbv zeta. split; [reflexivity|].
  exact (fidelity_cauchy_schwarz [RtoC 3; RtoC 0] [RtoC 1; RtoC 1] eq_refl).
Defined.

Lemma apply_repeatedly_even (gate : matrix) (a b : complex) :
  (∃ mid, apply_gate [a; b] gate = Ok mid ∧ apply_gate mid gate = Ok [a; b]) →
  ∀ n, apply_repeatedly gate (2 * n) [a; b] = Ok [a; b].
Proof.
  intros (mid & H1 & H2) n. induction n as [|n IH]; [reflexivity|].
  replace (2 * S n)%nat with (S (S (2 * n))) by lia.
  cbn [apply_repeatedly]. rewrite H1. cbn [bind]. rewrite H2. cbn [bind].
  exact IH.
Qed.

Lemma apply_repeatedly_odd (gate : matrix) (a b c d : complex) :
  apply_gate [a; b] gate = Ok [c; d] →
  (∃ mid, apply_gate [c; d] gate = Ok mid ∧ apply_gate mid gate = Ok [c; d]) →
  ∀ n, apply_repeatedly gate (2 * n + 1) [a; b] = Ok [c; d].
Proof.
  intros H1 Htwice n.
  replace (2 * n + 1)%nat with (S (2 * n)) by lia.
  cbn [apply_repeatedly]. rewrite H1. cbn [bind].
  by apply apply_repeatedly_even.
Qed.

(** X12.  The loops of [benchmark_pauli_x] and [benchmark_hadamard], which
    start from the state (1, 0): after an even number of iterations the
    state is (1, 0) again; after an odd number it is (0, 1) for Pauli-X
    and (1/sqrt 2, 1/sqrt 2) for Hadamard. *)
Theorem benchmark_gate_loops_parity (n : nat) :
  benchmark_pauli_x (2 * n) = Ok [RtoC 1; RtoC 0]
  ∧ benchmark_pauli_x (2 * n + 1) = Ok [RtoC 0; RtoC 1]
  ∧ benchmark_hadamard (2 * n) = Ok [RtoC 1; RtoC 0]
  ∧ benchmark_hadamard (2 * n + 1) = Ok [RtoC (1 / sqrt 2); RtoC (1 / sqrt 2)].
Proof.
  unfold benchmark_pauli_x, benchmark_hadamard. split_and!.
  - apply apply_repeatedly_even, PAULI_X_twice.
  - apply apply_repeatedly_odd; [|apply PAULI_X_twice].
    unfold apply_gate, matmul. cbn [forallb length Nat.eqb andb map PAULI_X].
    f_equal. apply vec2_eq; cbn; ring.
  - apply apply_repeatedly_even, HADAMARD_twice.
  - apply apply_repeatedly_odd; [|apply HADAMARD_twice].
    unfold apply_gate, matmul, HADAMARD, scale.
    cbn [forallb length Nat.eqb andb map].
    f_equal. apply vec2_eq; cbn; ring.
Qed.

End GateFacts.

(** * Further properties of the outcome tracker and the statistics *)

Lemma Qnat_nonneg (n : nat) : (0 <= Qnat n)%Q.
Proof. unfold Qnat, Qle. cbn. lia. Qed.

Lemma Qnat_le (n m : nat) : n ≤ m → (Qnat n <= Qnat m)%Q.
Proof. intros H. unfold Qnat, Qle. cbn. lia. Qed.

Lemma Qnat_S (n : nat) : (Qnat (S n) == Qnat n + 1)%Q.
Proof.
  unfold Qnat. rewrite Nat2Z.inj_succ, <- Z.add_1_r, inject_Z_plus. reflexivity.
Qed.

Lemma Qnat_lt_0 (n : nat) : 0 < n → (0 < Qnat n)%Q.
Proof. intros H. unfold Qnat, Qlt. cbn. lia. Qed.

(** X13.  Whatever the counters, [success_rate] is a number between 0
    and 1. *)
Theorem success_rate_in_unit_interval (m : SimpleManager) :
  ∃ r, success_rate m = Ok r ∧ (0 <= r <= 1)%Q.
Proof.
  rewrite success_rate_spec.
  destruct (ent_counter m + raw_counter m) as [|n] eqn:E.
  - exists 0%Q. split; [done|]. split; discriminate.
  - eexists. split; [done|]. rewrite <- E.
    assert (Hpos : (0 < Qnat (ent_counter m + raw_counter m))%Q)
      by (apply Qnat_lt_0; lia).
    split.
    + apply Qle_shift_div_l; [done|]. rewrite Qmult_0_l. apply Qnat_nonneg.
    + apply Qle_shift_div_r; [done|]. rewrite Qmult_1_l. apply Qnat_le. lia.
Qed.

Lemma Qsum_bounds (lo hi : Q) (l : list Q) : ∀ acc : Q,
  Forall (λ f, (lo <= f <= hi)%Q) l →
  (acc + Qnat (length l) * lo <= fold_left Qplus l acc
   ∧ fold_left Qplus l acc <= acc + Qnat (length l) * hi)%Q.
Proof.
  induction l as [|x l IH]; intros acc Hall.
  - cbn. change (Qnat 0) with 0%Q. split; Lqa.lra.
  - apply Forall_cons in Hall as [[Hlo Hhi] Hall].
    cbn [fold_left length]. destruct (IH (acc + x)%Q Hall) as [IHlo IHhi].
    rewrite Qnat_S. split.
    + eapply Qle_trans; [|exact IHlo]. Lqa.lra.
    + eapply Qle_trans; [exact IHhi|]. Lqa.lra.
Qed.

(** X14.  Over exact rational arithmetic: when at least one fidelity is
    recorded and every recorded fidelity lies between [lo] and [hi], the
    average fidelity lies between [lo] and [hi] too.  (In doubles the
    rounded sum and quotient can leave the interval by a rounding error:
    three times 0.95 averages to 0.9499999999999998.) *)
Theorem avg_fidelity_within_bounds (m : SimpleManager) (lo hi : Q) :
  fidelities m ≠ [] →
  Forall (λ f, (lo <= f <= hi)%Q) (fidelities m) →
  ∃ avg, avg_fidelity m = Ok avg ∧ (lo <= avg <= hi)%Q.
Proof.
  intros Hne Hall. unfold avg_fidelity.
  destruct (fidelities m) as [|x l] eqn:E; [done|].
  change (0 <? length (x :: l)) with true. cbv iota.
  assert (Hpos : (0 < Qnat (length (x :: l)))%Q) by (apply Qnat_lt_0; cbn; lia).
  rewrite truediv_nonzero by (intros H0; rewrite H0 in Hpos; by apply Qlt_irrefl in Hpos).
  eexists. split; [done|].
  destruct (Qsum_bounds lo hi (x :: l) 0%Q Hall) as [Hlo Hhi].
  unfold Qsum. split.
  - apply Qle_shift_div_l; [done|]. eapply Qle_trans; [|exact Hlo]. Lqa.lra.
  - apply Qle_shift_div_r; [done|]. eapply Qle_trans; [exact Hhi|]. Lqa.lra.
Qed.

Lemma avg_fidelity_within_bounds_witness :
  let m := {| memo_name := "node1.memo"; raw_counter := 1; ent_counter := 2;
              fidelities := [0.9; 0.95]%Q |} in
  fidelities m ≠ []
  ∧ Forall (λ f, (0.9 <= f <= 0.95)%Q) (fidelities m)
  ∧ ∃ avg, avg_fidelity m = Ok avg ∧ (0.9 <= avg <= 0.95)%Q.
Proof.
  cbv zeta.
  assert (Hne : [0.9; 0.95]%Q ≠ []) by discriminate.
  assert (Hall : Forall (λ f, (0.9 <= f <= 0.95)%Q) [0.9; 0.95]%Q).
  { repeat constructor; discriminate. }
  split; [exact Hne|]. split; [exact Hall|].
  exact (avg_fidelity_within_bounds
           {| memo_name := "node1.memo"; raw_counter := 1; ent_counter := 2;
              fidelities := [0.9; 0.95]%Q |} 0.9 0.95 Hne Hall).
Defined.

(** X15.  The throughput is never negative, whatever the counters and
    the simulated time. *)
Theorem throughput_nonnegative (m : SimpleManager) (now : Q) :
  ∃ t, throughput m now = Ok t ∧ (0 <= t)%Q.
Proof.
  unfold throughput. rewrite truediv_nonzero by done. cbn [bind].
  destruct (Qgtb (now / 1e12) 0) eqn:E.
  - apply Qgtb_spec in E.
    rewrite truediv_nonzero by (intros H0; rewrite H0 in E; by apply Qlt_irrefl in E).
    eexists. split; [done|].
    apply Qle_shift_div_l; [done|]. rewrite Qmult_0_l. apply Qnat_nonneg.
  - exists 0%Q. split; [done|]. discriminate.
Qed.

(** X16.  The expected transmission is 1 at distance 0, does not increase
    with the distance when the attenuation is non-negative, and over two
    consecutive stretches of fibre it is the product of the transmissions
    of the stretches. *)
Theorem expected_transmission_decreases (attenuation d1 d2 : R) :
  (0 <= attenuation)%R →
  (d1 <= d2)%R →
  (expected_transmission attenuation d2 <= expected_transmission attenuation d1
   ∧ expected_transmission attenuation 0 = 1
   ∧ expected_transmission attenuation (d1 + d2)
     = expected_transmission attenuation d1 * expected_transmission attenuation d2)%R.
Proof.
  intros Ha Hd. unfold expected_transmission, expected_loss_db. split_and!.
  - apply Rle_Rpower; [lra|].
    assert (attenuation * d1 <= attenuation * d2)%R by by apply Rmult_le_compat_l.
    lra.
  - replace (- (attenuation * 0) / 10)%R with 0%R by lra.
    apply Rpower_O. lra.
  - rewrite <- Rpower_plus. f_equal. lra.
Qed.

Lemma expected_transmission_decreases_witness :
  (0 <= 2 / 10000)%R
  ∧ (1000 <= 50000)%R
  ∧ (expected_transmission (2 / 10000) 50000 <= expected_transmission (2 / 10000) 1000
     ∧ expected_transmission (2 / 10000) 0 = 1
     ∧ expected_transmission (2 / 10000) (1000 + 50000)
       = expected_transmission (2 / 10000) 1000 * expected_transmission (2 / 10000) 50000)%R.
Proof.
  split; [lra|]. split; [lra|].
  apply (expected_transmission_decreases (2 / 10000) 1000 50000); lra.
Defined.

Section TrackerFacts.

Variable Memory : Type.
Variable memory_fidelity : Memory → Q.
Variable memory_reset : Memory → Memory.
Variable Protocol : Type.

Lemma updates_counters (calls : list (Protocol * Memory * string)) :
  ∀ self : SimpleManager,
  ent_counter (updates memory_fidelity memory_reset self calls)
    = ent_counter self + length (recorded memory_fidelity calls)
  ∧ raw_counter (updates memory_fidelity memory_reset self calls)
      + length (recorded memory_fidelity calls)
    = raw_counter self + length calls.
Proof.
  induction calls as [|[[protocol memory] state] rest IH]; intros self.
  - cbn. lia.
  - cbn [updates].
    destruct (IH (fst (update memory_fidelity memory_reset self protocol memory state)))
      as [He Hr].
    rewrite He. revert Hr. clear IH He.
    unfold recorded, update. cbn.
    destruct (String.eqb state "RAW"); cbn; lia.
Qed.

(** X17.  If a manager holds as many recorded fidelities as its
    [ent_counter] says, it still does after any sequence of [update]
    calls; a fresh manager does. *)
Theorem fidelity_history_matches_ent_counter
    (self : SimpleManager) (calls : list (Protocol * Memory * string)) :
  length (fidelities self) = ent_counter self →
  length (fidelities (updates memory_fidelity memory_reset self calls))
    = ent_counter (updates memory_fidelity memory_reset self calls).
Proof.
  intros Hinv.
  destruct (updates_spec Memory memory_fidelity memory_reset Protocol calls self)
    as [_ ->].
  destruct (updates_counters calls self) as [-> _].
  rewrite length_app. lia.
Qed.

(** X18.  After a non-empty sequence of [update] calls on a fresh
    manager, [success_rate] is the number of calls whose outcome was not
    RAW divided by the number of calls. *)
Theorem success_rate_after_updates
    (name : string) (calls : list (Protocol * Memory * string)) :
  calls ≠ [] →
  success_rate (updates memory_fidelity memory_reset (new_manager name) calls)
  = Ok (Qnat (length (recorded memory_fidelity calls)) / Qnat (length calls))%Q.
Proof.
  intros Hne. rewrite success_rate_spec.
  destruct (updates_counters calls (new_manager name)) as [He Hr].
  cbn [new_manager ent_counter raw_counter] in He, Hr.
  set (m := updates memory_fidelity memory_reset (new_manager name) calls) in *.
  assert (Htotal : ent_counter m + raw_counter m = length calls) by lia.
  rewrite Htotal, He. cbn [Nat.add].
  destruct calls; [done|]. reflexivity.
Qed.

End TrackerFacts.

Lemma fidelity_history_matches_ent_counter_witness :
  let self := new_manager "node1.memo" in
  let calls := [(tt, 0.9%Q, "ENTANGLED"); (tt, 0%Q, "RAW")] in
  length (fidelities self) = ent_counter self
  ∧ length (fidelities (updates (λ f : Q, f) (λ _ : Q, 0%Q) self calls))
    = ent_counter (updates (λ f : Q, f) (λ _ : Q, 0%Q) self calls).
Proof.
  cbv zeta. split; [reflexivity|].
  exact (fidelity_history_matches_ent_counter Q (λ f : Q, f) (λ _ : Q, 0%Q) unit
           (new_manager "node1.memo")
           [(tt, 0.9%Q, "ENTANGLED"); (tt, 0%Q, "RAW")] eq_refl).
Defined.

Lemma success_rate_after_updates_witness :
  let calls := [(tt, 0.9%Q, "ENTANGLED"); (tt, 0%Q, "RAW")] in
  calls ≠ []
  ∧ success_rate (updates (λ f : Q, f) (λ _ : Q, 0%Q) (new_manager "node1.memo") calls)
    = Ok (Qnat (length (recorded (λ f : Q, f) calls)) / Qnat (length calls))%Q.
Proof.
  cbv zeta.
  assert (Hne : [(tt, 0.9%Q, "ENTANGLED"); (tt, 0%Q, "RAW")] ≠ []) by discriminate.
  split; [exact Hne|].
  exact (success_rate_after_updates Q (λ f : Q, f) (λ _ : Q, 0%Q) unit
           "node1.memo" [(tt, 0.9%Q, "ENTANGLED"); (tt, 0%Q, "RAW")] Hne).
Defined.
